(** * Verification of qiskit-terra's primitives helpers

    - [Statevector_primitive] embeds
      [qiskit/primitives/statevector_primitive.py]: the parameter binding
      and the memoized statevector construction of [StatevectorPrimitive].
    - [Backend_estimator] models the measurement, decomposition and
      transpilation helpers exercised by
      [test/python/primitives/test_backend_estimator_dev.py]. *)

From stdpp Require Import gmap list strings sorting.
From Stdlib Require Import ZArith Ascii.

Set Default Proof Using "Type".

(** ** Python results *)

(** The exceptions the modelled code can raise.  [ValueError] carries the two
    numbers interpolated in the message of [_bind_circuit_parameters];
    [External] is whatever an external collaborator raised. *)
Inductive PyError (X : Type) : Type :=
  | ValueError (nvalues nparameters : nat)
  | IndexError
  | TypeError
  | External (x : X).
Arguments ValueError {X} nvalues nparameters.
Arguments IndexError {X}.
Arguments TypeError {X}.
Arguments External {X} x.

Inductive Result (X A : Type) : Type :=
  | Ok (a : A)
  | Raise (e : PyError X).
Arguments Ok {X A} a.
Arguments Raise {X A} e.

Definition is_count_mismatch {X A} (r : Result X A) : bool :=
  match r with
  | Raise (ValueError _ _) => true
  | _ => false
  end.

(** The outcome of a call to an external collaborator: [inr] is the value it
    returned, [inl] the exception it raised. *)
Definition external {X A} (r : X + A) : Result X A :=
  match r with
  | inr a => Ok a
  | inl x => Raise (External x)
  end.

(** [l[i]] on a Python list: negative indices count from the end, anything
    out of range raises [IndexError]. *)
Definition py_getitem {X A} (l : list A) (i : Z) : Result X A :=
  let n := Z.of_nat (length l) in
  let j := if (i <? 0)%Z then (i + n)%Z else i in
  if ((0 <=? j)%Z && (j <? n)%Z)%bool
  then match l !! Z.to_nat j with
       | Some x => Ok x
       | None => Raise IndexError
       end
  else Raise IndexError.

(** [dict(pairs)]: a later pair overrides an earlier one with the same key. *)
Definition dict `{Countable K} {V} (pairs : list (K * V)) : gmap K V :=
  foldl (λ m kv, <[kv.1 := kv.2]> m) ∅ pairs.

(** ** statevector_primitive.py *)
Module Statevector_primitive.

Section WithCollaborators.
(** [QuantumCircuit], [Parameter] (here [Param]), the float values of a
    binding and [Statevector] are external to the file; so are
    [QuantumCircuit.bind_parameters] and the [Statevector] constructor,
    which are deterministic functions that may raise. *)
Context {Circuit Param Value Statevector ExtErr : Type}.
Context `{Countable Param} `{Countable Value}.
Variable bind_parameters : Circuit → gmap Param Value → ExtErr + Circuit.
Variable Statevector_init : Circuit → ExtErr + Statevector.

(** The owning object.  [self_id] is its identity, which is what the
    default [__hash__]/[__eq__] of [self] compare when [self] becomes part
    of a cache key. *)
Record StatevectorPrimitive : Type := {
  self_id : positive;
  _circuits : list Circuit;
  _parameters : list (list Param);
}.

(** Calls received by the external collaborators, oldest first. *)
Inductive Call : Type :=
  | BindCall (circuit : Circuit) (parameter_mapping : gmap Param Value)
  | StatevectorCall (circuit : Circuit).

(** The key [lru_cache] builds from the positional arguments
    [(self, circuit_index, parameter_values)]. *)
Definition Key : Type := positive * Z * list Value.

(** What the code reads and writes: the table of
    [cache = lru_cache(maxsize=None)] with its hit and miss counters, and
    the log of external calls. *)
Record World : Type := {
  memo : gmap (positive * Z * list Value) Statevector;
  hits : nat;
  misses : nat;
  calls : list Call;
}.

Definition empty_world : World :=
  {| memo := ∅; hits := 0; misses := 0; calls := [] |}.

Definition M (A : Type) : Type := World → Result ExtErr A * World.

Definition ret {A} (a : A) : M A := λ w, (Ok a, w).
Definition raise {A} (e : PyError ExtErr) : M A := λ w, (Raise e, w).
Definition bind {A B} (m : M A) (k : A → M B) : M B :=
  λ w, match m w with
       | (Ok a, w') => k a w'
       | (Raise e, w') => (Raise e, w')
       end.
Definition lift {A} (r : Result ExtErr A) : M A := λ w, (r, w).

(** The world after some more external calls. *)
Definition add_calls (tr : list Call) (w : World) : World :=
  {| memo := memo w; hits := hits w; misses := misses w;
     calls := calls w ++ tr |}.
Definition log (c : Call) : M unit := λ w, (Ok tt, add_calls [c] w).

Notation "'let*' x := m 'in' k" := (bind m (λ x, k))
  (at level 10, x name, m at level 100, k at level 200, only parsing).

(** [circuit.bind_parameters(parameter_mapping)] *)
Definition call_bind_parameters (circuit : Circuit)
    (parameter_mapping : gmap Param Value) : M Circuit :=
  let* _ := log (BindCall circuit parameter_mapping) in
  lift (external (bind_parameters circuit parameter_mapping)).

(** [Statevector(circuit)] *)
Definition call_Statevector (circuit : Circuit) : M Statevector :=
  let* _ := log (StatevectorCall circuit) in
  lift (external (Statevector_init circuit)).

Definition _bind_circuit_parameters (self : StatevectorPrimitive)
    (circuit_index : Z) (parameter_values : list Value) : M Circuit :=
  let* parameters := lift (py_getitem (_parameters self) circuit_index) in
  if negb (length parameter_values =? length parameters)
  then raise (ValueError (length parameter_values) (length parameters))
  else
    let* circuit := lift (py_getitem (_circuits self) circuit_index) in
    match parameter_values with
    | [] => ret circuit
    | _ :: _ =>
        let parameter_mapping := dict (zip parameters parameter_values) in
        call_bind_parameters circuit parameter_mapping
    end.

(** The body of [_build_statevector], before decoration. *)
Definition _build_statevector__wrapped__ (self : StatevectorPrimitive)
    (circuit_index : Z) (parameter_values : list Value) : M Statevector :=
  let* circuit := _bind_circuit_parameters self circuit_index parameter_values in
  call_Statevector circuit.

Definition count_hit (w : World) : World :=
  {| memo := memo w; hits := S (hits w); misses := misses w;
     calls := calls w |}.
Definition count_miss (w : World) : World :=
  {| memo := memo w; hits := hits w; misses := S (misses w);
     calls := calls w |}.
Definition store (key : Key) (result : Statevector) (w : World) : World :=
  {| memo := <[key := result]> (memo w); hits := hits w;
     misses := misses w; calls := calls w |}.

(** [lru_cache(maxsize=None)] around a user function: a hit returns the
    stored result; a miss runs the function and stores its result only if
    it returned; an exception propagates and nothing is stored. *)
Definition cache (user_function : M Statevector) (key : Key) : M Statevector :=
  λ w, match memo w !! key with
       | Some result => (Ok result, count_hit w)
       | None =>
           match user_function (count_miss w) with
           | (Ok result, w') => (Ok result, store key result w')
           | (Raise e, w') => (Raise e, w')
           end
       end.

Definition make_key (self : StatevectorPrimitive) (circuit_index : Z)
    (parameter_values : list Value) : Key :=
  (self_id self, circuit_index, parameter_values).

Definition _build_statevector (self : StatevectorPrimitive)
    (circuit_index : Z) (parameter_values : list Value) : M Statevector :=
  cache (_build_statevector__wrapped__ self circuit_index parameter_values)
        (make_key self circuit_index parameter_values).

(** Every entry stored for [self] is what the body returns for its key. *)
Definition memo_sound (self : StatevectorPrimitive) (w : World) : Prop :=
  ∀ i vs v, memo w !! make_key self i vs = Some v →
    ∃ tr, ∀ w' : World,
      _build_statevector__wrapped__ self i vs w' = (Ok v, add_calls tr w').

(** The world after a sequence of calls of [_build_statevector] on one
    object, oldest first, starting with an empty cache. *)
Definition after (self : StatevectorPrimitive)
    (prior : list (Z * list Value)) : World :=
  foldl (λ w call, (_build_statevector self call.1 call.2 w).2)
        empty_world prior.

(** Whether a logged call is a call of the [Statevector] constructor. *)
Definition is_evaluation (c : Call) : bool :=
  match c with
  | StatevectorCall _ => true
  | BindCall _ _ => false
  end.

(** How many times the evaluator was called in a log. *)
Definition count_evaluations (tr : list Call) : nat :=
  length (filter (λ c, is_evaluation c) tr).

End WithCollaborators.

End Statevector_primitive.

(** A small concrete set of collaborators, used to run the code: a circuit is
    a list of rotation angles, each a free parameter or a number; the
    evaluator refuses a circuit that still has a free parameter. *)
Module Demo.
Import Statevector_primitive.

Inductive Angle : Type :=
  | Free (p : nat)
  | Bound (x : Z).

Definition bind_angle (m : gmap nat Z) (a : Angle) : Angle :=
  match a with
  | Free p => match m !! p with Some x => Bound x | None => Free p end
  | Bound x => Bound x
  end.

Definition bind_parameters (c : list Angle) (m : gmap nat Z)
    : unit + list Angle :=
  inr (bind_angle m <$> c).

Fixpoint angles (c : list Angle) : option (list Z) :=
  match c with
  | [] => Some []
  | Free _ :: _ => None
  | Bound x :: c' => option_map (cons x) (angles c')
  end.

Definition Statevector_init (c : list Angle) : unit + list Z :=
  match angles c with
  | Some xs => inr xs
  | None => inl tt
  end.

(** Three circuits: the first with the parameters 0 and 1, the second with
    none, the third declared with the parameter 0 alone although it also
    holds the parameter 3, so that its evaluation fails after binding. *)
Definition estimator : StatevectorPrimitive :=
  {| self_id := 1%positive;
     _circuits := [[Free 0; Bound 5; Free 1]; [Bound 7]; [Free 0; Free 3]];
     _parameters := [[0; 1]; []; [0]] |}.

Definition build := _build_statevector bind_parameters Statevector_init.
Definition bind_circuit :=
  _bind_circuit_parameters (Statevector:=list Z) bind_parameters.
Definition wrapped :=
  _build_statevector__wrapped__ bind_parameters Statevector_init.
Definition after := after bind_parameters Statevector_init.
End Demo.

(** ** backend_estimator_dev.py

    The module itself is not part of the sources at hand; its tests are.
    The operations below are modelled from the specification and checked
    against the data of the tests. *)
Module Backend_estimator.

(** *** Circuits, Pauli terms, layouts *)

(** A circuit instruction on qubit and classical-bit indices. *)
Inductive Instruction : Type :=
  | OpH (q : nat)
  | OpSdg (q : nat)
  | OpMeasure (q c : nat)
  | OpGate (name : string) (qargs : list nat).

#[global] Instance Instruction_eq_dec : EqDecision Instruction.
Proof. solve_decision. Defined.

(** A layout, as the dictionary [Layout] is built from: every physical qubit
    of the target is a key, and its value is the logical qubit placed on it,
    or [None] when the physical qubit is unused. *)
Abbreviation Layout := (gmap nat (option nat)).

(** A value stored under a key of [circuit.metadata]. *)
Inductive MetaValue : Type :=
  | MetaIndices (indices : list nat)
  | MetaLayout (layout : Layout).

#[global] Instance MetaValue_eq_dec : EqDecision MetaValue.
Proof. solve_decision. Defined.

Record QuantumCircuit : Type := {
  num_qubits : nat;
  num_clbits : nat;
  data : list Instruction;
  metadata : gmap string MetaValue;
}.

(** [QuantumCircuit(n, m)] *)
Definition QuantumCircuit_init (n m : nat) (ops : list Instruction)
    : QuantumCircuit :=
  {| num_qubits := n; num_clbits := m; data := ops; metadata := ∅ |}.

Definition touches (q : nat) (i : Instruction) : bool :=
  match i with
  | OpH q' | OpSdg q' | OpMeasure q' _ => bool_decide (q' = q)
  | OpGate _ qargs => bool_decide (q ∈ qargs)
  end.

(** The instructions acting on qubit [q], in circuit order. *)
Definition wire (q : nat) (circuit : QuantumCircuit) : list Instruction :=
  filter (λ i, touches q i) (data circuit).

Definition as_measurement (i : Instruction) : option (nat * nat) :=
  match i with
  | OpMeasure q c => Some (q, c)
  | _ => None
  end.

(** The (qubit, classical bit) pairs of the measurement instructions, in
    circuit order. *)
Definition measurements (circuit : QuantumCircuit) : list (nat * nat) :=
  omap as_measurement (data circuit).

(** The measurements into classical bit [c], in circuit order. *)
Definition clbit_wire (c : nat) (circuit : QuantumCircuit)
    : list (nat * nat) :=
  filter (λ m, m.2 = c) (measurements circuit).

(** Circuit equality as the tests use it: same sizes and, on every qubit and
    on every classical bit, the same instructions in the same order.
    Metadata is not compared. *)
Definition circuit_eqb (a b : QuantumCircuit) : bool :=
  bool_decide (num_qubits a = num_qubits b) &&
  bool_decide (num_clbits a = num_clbits b) &&
  forallb (λ q, bool_decide (wire q a = wire q b)) (seq 0 (num_qubits a)) &&
  forallb (λ c, bool_decide (clbit_wire c a = clbit_wire c b))
          (seq 0 (num_clbits a)).

(** A per-qubit Pauli label. *)
Inductive PauliLabel : Type := LI | LX | LY | LZ.

#[global] Instance PauliLabel_eq_dec : EqDecision PauliLabel.
Proof. solve_decision. Defined.

(** A Pauli term: position [q] of the list is the label of qubit [q]. *)
Abbreviation PauliTerm := (list PauliLabel).

Definition label_at (term : PauliTerm) (q : nat) : PauliLabel :=
  default LI (term !! q).

Definition label_of_ascii (a : ascii) : option PauliLabel :=
  if decide (a = "I"%char) then Some LI
  else if decide (a = "X"%char) then Some LX
  else if decide (a = "Y"%char) then Some LY
  else if decide (a = "Z"%char) then Some LZ
  else None.

(** [Pauli(label)] as the tests write terms: the rightmost character is
    qubit 0.  The tests use the characters IXYZ only; any other character
    is read as I here. *)
Definition Pauli (label : string) : PauliTerm :=
  reverse ((λ a, default LI (label_of_ascii a)) <$> String.list_ascii_of_string label).

(** *** MeasurementCircuitBuilder *)

(** [enumerate(l)]: every element with its position. *)
Definition enumerate {A} (l : list A) : list (nat * A) :=
  zip (seq 0 (length l)) l.

(** Modelled from the spec: MeasuredQubitIndices, the ordered tuple of the
    qubit indices whose label is not I, and qubit 0 alone when the term is
    the identity on every qubit.  The test computes it as
    [tuple(i for i, p in enumerate(pauli) if p != Pauli("I")) or (0,)]. *)
Definition measured_qubit_indices (pauli : PauliTerm) : list nat :=
  match filter (λ q, label_at pauli q ≠ LI) (seq 0 (length pauli)) with
  | [] => [0]
  | indices => indices
  end.

(** Modelled from the spec: the basis change of [build_pauli_measurement],
    a Hadamard for X, an inverse-S then a Hadamard for Y, nothing for Z
    (and nothing for I). *)
Definition basis_change (label : PauliLabel) (qubit : nat) : list Instruction :=
  match label with
  | LX => [OpH qubit]
  | LY => [OpSdg qubit; OpH qubit]
  | LZ | LI => []
  end.

(** Modelled from the spec: [build_pauli_measurement], which is missing from
    the sources.  One classical bit per measured qubit; the measured qubits
    are taken in increasing order, each gets its basis change and is then
    measured into the next classical bit; the metadata holds the measured
    indices and nothing else. *)
(** Modelled from the spec: what [build_pauli_measurement] appends for one
    measured qubit, its basis change and then its measurement into the
    classical bit allocated to it. *)
Definition measure_qubit (pauli : PauliTerm) (cbit_qubit : nat * nat)
    : list Instruction :=
  let '(cbit, qubit) := cbit_qubit in
  basis_change (label_at pauli qubit) qubit ++ [OpMeasure qubit cbit].

Definition _build_pauli_measurement (pauli : PauliTerm) : QuantumCircuit :=
  let indices := measured_qubit_indices pauli in
  {| num_qubits := length pauli;
     num_clbits := length indices;
     data := enumerate indices ≫= measure_qubit pauli;
     metadata := {[ "measured_qubit_indices" := MetaIndices indices ]} |}.

(** *** ObservableDecomposer *)

(** Modelled from the spec: two labels are compatible when they are equal
    or one of them is I. *)
Definition labels_compatible (a b : PauliLabel) : bool :=
  bool_decide (a = LI) || bool_decide (b = LI) || bool_decide (a = b).

(** Modelled from the spec: two terms commute qubit-wise if, for every
    qubit, their labels are equal or at least one is I. *)
Definition qubit_wise_commuting (s t : PauliTerm) : Prop :=
  ∀ q, label_at s q = label_at t q ∨ label_at s q = LI ∨ label_at t q = LI.

(** Modelled from the spec: a MeasurementGroup, its terms with their
    coefficients, in the order they were added, and the per-qubit
    measurement basis resolved so far. *)
Record MeasurementGroup (C : Type) : Type := {
  terms : list (PauliTerm * C);
  basis : PauliTerm;
}.
Arguments terms {C} _.
Arguments basis {C} _.

(** Every term of the group agrees with the group's basis wherever the term
    is not I. *)
Definition group_ok {C} (g : MeasurementGroup C) : Prop :=
  ∀ t q, t ∈ (terms g).*1 →
    label_at t q = LI ∨ label_at t q = label_at (basis g) q.

(** Modelled from the spec: whether the basis assignment of a group is
    compatible (equal or I) with every non-I entry of [term]. *)
Fixpoint compatible (basis term : PauliTerm) : bool :=
  match basis, term with
  | b :: basis', t :: term' => labels_compatible b t && compatible basis' term'
  | _, _ => true
  end.

(** Modelled from the spec: the basis assignment of a group after [term]
    joined it. *)
Fixpoint update_basis (basis term : PauliTerm) : PauliTerm :=
  match basis, term with
  | b :: basis', t :: term' =>
      (if bool_decide (b = LI) then t else b) :: update_basis basis' term'
  | [], term => term
  | basis, [] => basis
  end.

(** Modelled from the spec: one greedy first-fit step of
    [AbelianDecomposer.decompose].  The term joins the first open group whose
    basis it is compatible with, and that group's basis is updated;
    otherwise it opens a new group, after the others. *)
Fixpoint first_fit {C} (groups : list (MeasurementGroup C))
    (term : PauliTerm * C) : list (MeasurementGroup C) :=
  match groups with
  | [] => [ {| terms := [term]; basis := term.1 |} ]
  | g :: groups' =>
      if compatible (basis g) term.1
      then {| terms := terms g ++ [term];
              basis := update_basis (basis g) term.1 |} :: groups'
      else g :: first_fit groups' term
  end.

(** Modelled from the spec: [AbelianDecomposer.decompose], missing from the
    sources.  The terms of the observable are taken in their declaration
    order. *)
Definition AbelianDecomposer_decompose {C} (observable : list (PauliTerm * C))
    : list (MeasurementGroup C) :=
  foldl first_fit [] observable.

(** Modelled from the spec: [NaiveDecomposer.decompose], missing from the
    sources.  Every term becomes its own singleton group. *)
Definition NaiveDecomposer_decompose {C} (observable : list (PauliTerm * C))
    : list (MeasurementGroup C) :=
  (λ term, {| terms := [term]; basis := term.1 |}) <$> observable.

(** *** TranspilationLayoutTracker *)

(** Modelled from the spec: the measure-all step, which measures every qubit
    [i] into classical bit [i], after everything the circuit already
    holds. *)
Definition measure_all (circuit : QuantumCircuit) : QuantumCircuit :=
  {| num_qubits := num_qubits circuit;
     num_clbits := num_clbits circuit `max` num_qubits circuit;
     data := data circuit
             ++ ((λ q, OpMeasure q q) <$> seq 0 (num_qubits circuit));
     metadata := metadata circuit |}.

(** [dict.fromkeys(range(n))] *)
Definition fromkeys_range (n : nat) : gmap nat (option nat) :=
  list_to_map ((λ p, (p, None)) <$> seq 0 n).

(** The layout dictionary of the tests:
    [layout_dict = dict.fromkeys(range(target_qubits))] followed by
    [layout_dict.update(dict(zip(indices, qubits)))], where the logical
    qubits are numbered from 0. *)
Definition layout_dict (target_qubits : nat) (indices : list nat)
    (logical_qubits : nat) : Layout :=
  (Some <$> dict (zip indices (seq 0 logical_qubits)))
  ∪ fromkeys_range target_qubits.

(** Modelled from the spec: reading the measurements in classical-bit
    order.  A measurement is inserted before the first one on a classical
    bit that is not smaller. *)
Fixpoint insert_by_clbit (m : nat * nat) (ms : list (nat * nat))
    : list (nat * nat) :=
  match ms with
  | [] => [m]
  | m' :: ms' =>
      if decide (m.2 ≤ m'.2) then m :: ms else m' :: insert_by_clbit m ms'
  end.

(** Modelled from the spec: the measurements in classical-bit order (a
    stable sort). *)
Definition sort_by_clbit (ms : list (nat * nat)) : list (nat * nat) :=
  foldr insert_by_clbit [] ms.

(** Modelled from the spec: [infer_final_layout], missing from the sources.
    The physical qubits are read from the measurement instructions of the
    transpiled circuit in classical-bit order, the i-th of them is paired
    with logical qubit i of the original circuit, and the physical qubits
    left over are unmapped. *)
Definition _infer_final_layout (original_circuit transpiled_circuit
    : QuantumCircuit) : Layout :=
  let indices := (sort_by_clbit (measurements transpiled_circuit)).*1 in
  layout_dict (num_qubits transpiled_circuit) indices
              (num_qubits original_circuit).

(** An instruction with its qubits renamed by [f]. *)
Definition relabel (f : nat → nat) (i : Instruction) : Instruction :=
  match i with
  | OpH q => OpH (f q)
  | OpSdg q => OpSdg (f q)
  | OpMeasure q c => OpMeasure (f q) c
  | OpGate name qargs => OpGate name (f <$> qargs)
  end.

(** Modelled from the spec: the layout-setting and layout-application pass
    sequence of the tests ([SetLayout] then [ApplyLayout]), missing from the
    sources, which only moves every logical qubit [q] to the physical qubit
    [layout_intlist[q]] of a target with [target_qubits] qubits. *)
Definition apply_layout (target_qubits : nat) (layout_intlist : list nat)
    (circuit : QuantumCircuit) : QuantumCircuit :=
  {| num_qubits := target_qubits;
     num_clbits := num_clbits circuit;
     data := relabel (λ q, default q (layout_intlist !! q)) <$> data circuit;
     metadata := metadata circuit |}.

Section Estimator.
(** The backend is an opaque handle; the transpiler is the external
    [transpile(circuit, backend)]. *)
Context {Backend : Type}.
Variable transpile : QuantumCircuit → Backend → QuantumCircuit.

(** A pass manager is known by what its [run] returns. *)
Record PassManager : Type := { run : QuantumCircuit → QuantumCircuit }.

Record BackendEstimator : Type := {
  backend : Backend;
  abelian_grouping : bool;
  _bound_pass_manager : option PassManager;
}.

(** [BackendEstimator(backend)] *)
Definition BackendEstimator_init (b : Backend) : BackendEstimator :=
  {| backend := b; abelian_grouping := true; _bound_pass_manager := None |}.

(** A Python value handed to a method that expects a circuit. *)
Inductive PyValue : Type :=
  | PyCircuit (circuit : QuantumCircuit)
  | PyStr (s : string)
  | PyNone.

(** Calls received by the external collaborators, oldest first. *)
Inductive ExternalCall : Type :=
  | TranspileCall (circuit : QuantumCircuit) (b : Backend)
  | PassManagerRun (circuit : QuantumCircuit).

(** Modelled from the spec: [run_bound_pass_manager], missing from the
    sources.  A type error if the input is not a circuit; the input itself
    if no bound pass manager is configured; otherwise what the pass manager
    returns for it.  The second component is the list of external calls
    made. *)
Definition _run_bound_pass_manager (self : BackendEstimator) (circuit : PyValue)
    : Result Empty_set QuantumCircuit * list ExternalCall :=
  match circuit with
  | PyCircuit c =>
      match _bound_pass_manager self with
      | None => (Ok c, [])
      | Some pass_manager => (Ok (run pass_manager c), [PassManagerRun c])
      end
  | _ => (Raise TypeError, [])
  end.

(** Modelled from the spec: [transpile], missing from the sources.  The
    measure-all step, one call of the external transpiler with the measured
    circuit and the backend, and the inferred layout stored under
    ["final_layout"] in the metadata of the transpiler's output. *)
Definition _transpile (self : BackendEstimator) (circuit : QuantumCircuit)
    : QuantumCircuit * list ExternalCall :=
  let measured_circuit := measure_all circuit in
  let transpiled_circuit := transpile measured_circuit (backend self) in
  let layout := _infer_final_layout measured_circuit transpiled_circuit in
  ({| num_qubits := num_qubits transpiled_circuit;
      num_clbits := num_clbits transpiled_circuit;
      data := data transpiled_circuit;
      metadata := <["final_layout" := MetaLayout layout]>
                    (metadata transpiled_circuit) |},
   [TranspileCall measured_circuit (backend self)]).

End Estimator.

End Backend_estimator.

(** ** test_backend_estimator_dev.py

    The data and the checks of the tests, to be run on the model above. *)
Module Test_backend_estimator_dev.
Import Backend_estimator.

(** The generator [measurement_circuit_examples]: commuting Paulis and the
    measurement circuit expected for them. *)
Definition measurement_circuit_examples
    : list (list string * QuantumCircuit) :=
  [ (["I"; "Z"], QuantumCircuit_init 1 1 [OpMeasure 0 0]);
    (["X"; "I"], QuantumCircuit_init 1 1 [OpH 0; OpMeasure 0 0]);
    (["Y"; "I"], QuantumCircuit_init 1 1 [OpSdg 0; OpH 0; OpMeasure 0 0]);
    (["Z"; "I"], QuantumCircuit_init 1 1 [OpMeasure 0 0]);
    (["II"], QuantumCircuit_init 2 1 [OpMeasure 0 0]);
    (["IY"; "II"], QuantumCircuit_init 2 1 [OpSdg 0; OpH 0; OpMeasure 0 0]);
    (["XY"; "II"; "XI"; "IY"],
     QuantumCircuit_init 2 2
       [OpH 1; OpSdg 0; OpH 0; OpMeasure 0 0; OpMeasure 1 1]);
    (["XX"; "IX"; "XI"; "II"],
     QuantumCircuit_init 2 2 [OpH 1; OpH 0; OpMeasure 0 0; OpMeasure 1 1]);
    (["ZZ"; "IZ"; "ZI"; "II"],
     QuantumCircuit_init 2 2 [OpMeasure 0 0; OpMeasure 1 1]);
    (["XYZ"; "XII"; "IYI"; "IIZ"; "XIZ"; "III"],
     QuantumCircuit_init 3 3
       [OpH 2; OpSdg 1; OpH 1;
        OpMeasure 0 0; OpMeasure 1 1; OpMeasure 2 2]);
    (["YIX"; "IIX"; "YII"; "III"],
     QuantumCircuit_init 3 2
       [OpSdg 2; OpH 2; OpH 0; OpMeasure 0 0; OpMeasure 2 1]);
    (["IXII"; "IIII"], QuantumCircuit_init 4 1 [OpH 2; OpMeasure 2 0]) ]%string.

(** [tuple(i for i, p in enumerate(pauli) if p != Pauli("I")) or (0,)] *)
Definition meas_indices (pauli : PauliTerm) : list nat :=
  match (filter (λ ip, ip.2 ≠ LI) (enumerate pauli)).*1 with
  | [] => [0]
  | indices => indices
  end.

(** [TestMeasurement.test_build_pauli_measurement] on one example. *)
Definition test_build_pauli_measurement
    (example : list string * QuantumCircuit) : bool :=
  let pauli := Pauli (default ""%string (head example.1)) in
  let circuit := _build_pauli_measurement pauli in
  circuit_eqb circuit example.2 &&
  bool_decide (metadata circuit =
    {[ "measured_qubit_indices"%string := MetaIndices (meas_indices pauli) ]}).

(** The data of [test_transpile] and [test_infer_final_layout]:
    [target_qubits] and [layout_intlist]. *)
Definition layout_examples : list (nat * list nat) :=
  [ (3, [0; 1; 2]); (4, [0; 1; 2; 3]); (4, [1; 3; 2; 0]);
    (4, [0; 1; 3]); (4, [3; 1]) ].

(** [TestTranspilation.test_infer_final_layout] on one example. *)
Definition test_infer_final_layout (example : nat * list nat) : bool :=
  let '(target_qubits, layout_intlist) := example in
  let num_qubits := length layout_intlist in
  let original_circuit := measure_all (QuantumCircuit_init num_qubits 0 []) in
  let applied_layout := layout_dict target_qubits layout_intlist num_qubits in
  let transpiled_circuit :=
    apply_layout target_qubits layout_intlist original_circuit in
  let inferred_layout :=
    _infer_final_layout original_circuit transpiled_circuit in
  bool_decide (inferred_layout = applied_layout).

(** [TestTranspilation.test_transpile] on one example; the patched
    transpiler returns the transpiled circuit whatever it is given, and the
    backend is a mock. *)
Definition test_transpile (example : nat * list nat) : bool :=
  let '(target_qubits, layout_intlist) := example in
  let num_qubits := length layout_intlist in
  let input_circuit := QuantumCircuit_init num_qubits 0 [] in
  let measured_circuit := measure_all input_circuit in
  let applied_layout := layout_dict target_qubits layout_intlist num_qubits in
  let transpiled_circuit :=
    apply_layout target_qubits layout_intlist measured_circuit in
  let estimator := BackendEstimator_init tt in
  let '(output_circuit, mock_calls) :=
    _transpile (λ _ _, transpiled_circuit) estimator input_circuit in
  match mock_calls with
  | [TranspileCall call_circuit call_backend] =>
      circuit_eqb call_circuit measured_circuit &&
      circuit_eqb output_circuit transpiled_circuit &&
      bool_decide (metadata output_circuit !! "final_layout"%string
                   = Some (MetaLayout applied_layout))
  | _ => false
  end.

(** [TestTranspilation.test_run_bound_pass_manager]. *)
Definition test_run_bound_pass_manager
    (circuit mock_circuit : QuantumCircuit) : Prop :=
  let estimator := BackendEstimator_init tt in
  _run_bound_pass_manager estimator (PyStr "circuit") = (Raise TypeError, []) ∧
  _run_bound_pass_manager estimator (PyCircuit circuit) = (Ok circuit, []) ∧
  let estimator' :=
    {| backend := tt; abelian_grouping := true;
       _bound_pass_manager := Some {| run := λ _, mock_circuit |} |} in
  _run_bound_pass_manager estimator' (PyCircuit circuit)
  = (Ok mock_circuit, [PassManagerRun circuit]).

End Test_backend_estimator_dev.

(** * Properties of statevector_primitive.py *)
Module Statevector_primitive_proofs.
Import Statevector_primitive.

Section WithCollaborators.
Context {Circuit Param Value Statevector ExtErr : Type}.
Context `{Countable Param} `{Countable Value}.
Variable bind_parameters : Circuit → gmap Param Value → ExtErr + Circuit.
Variable Statevector_init : Circuit → ExtErr + Statevector.

Local Abbreviation Self := (@StatevectorPrimitive Circuit Param).
Local Abbreviation W := (@World Circuit Param Value Statevector _ _ _ _).
Local Abbreviation bind_circuit := (_bind_circuit_parameters (Value:=Value)
  (Statevector:=Statevector) bind_parameters).
Local Abbreviation wrapped :=
  (_build_statevector__wrapped__ bind_parameters Statevector_init).
Local Abbreviation build :=
  (_build_statevector bind_parameters Statevector_init).
Local Abbreviation after := (after bind_parameters Statevector_init).
Local Abbreviation getitem := (py_getitem (X:=ExtErr)).
Local Abbreviation memo_sound :=
  (memo_sound bind_parameters Statevector_init).

Lemma add_calls_nil (w : W) : add_calls [] w = w.
Proof. destruct w; unfold add_calls; simpl. by rewrite app_nil_r. Qed.

Lemma add_calls_app tr1 tr2 (w : W) :
  add_calls tr2 (add_calls tr1 w) = add_calls (tr1 ++ tr2) w.
Proof. unfold add_calls; simpl. by rewrite app_assoc. Qed.

(** The outcome of binding and the calls it makes do not depend on the
    world it starts in. *)
Lemma bind_circuit_uniform (self : Self) i (vs : list Value) :
  ∃ r tr, ∀ w : W, bind_circuit self i vs w = (r, add_calls tr w).
Proof.
  unfold _bind_circuit_parameters, bind, lift, raise, ret.
  destruct (py_getitem (_parameters self) i) as [ps|e].
  2:{ exists (Raise e), []. intros w. by rewrite add_calls_nil. }
  destruct (negb (length vs =? length ps)).
  { eexists (Raise _), []. intros w. by rewrite add_calls_nil. }
  destruct (py_getitem (_circuits self) i) as [c|e].
  2:{ exists (Raise e), []. intros w. by rewrite add_calls_nil. }
  destruct vs as [|v vs].
  { exists (Ok c), []. intros w. by rewrite add_calls_nil. }
  eexists _, [_]. intros w.
  unfold call_bind_parameters, bind, log, lift. reflexivity.
Qed.

Lemma wrapped_uniform (self : Self) i (vs : list Value) :
  ∃ r tr, ∀ w : W, wrapped self i vs w = (r, add_calls tr w).
Proof.
  destruct (bind_circuit_uniform self i vs) as (r & tr & Hb).
  unfold _build_statevector__wrapped__, bind.
  destruct r as [c|e].
  - exists (external (Statevector_init c)), (tr ++ [StatevectorCall c]).
    intros w. rewrite Hb. unfold call_Statevector, bind, log, lift. simpl.
    unfold add_calls. simpl. by rewrite app_assoc.
  - exists (Raise e), tr. intros w. by rewrite Hb.
Qed.

(** After a call that returned, the key of the call is in the table with
    the returned state. *)
Lemma build_returns_stored (self : Self) i (vs : list Value) (w w1 : W) v :
  build self i vs w = (Ok v, w1) →
  memo w1 !! make_key self i vs = Some v.
Proof.
  unfold _build_statevector, cache.
  destruct (memo w !! make_key self i vs) as [r|] eqn:Hm.
  - intros [= <- <-]. exact Hm.
  - destruct (wrapped self i vs (count_miss w)) as [[r|e] w'] eqn:Hw;
      intros [= <- <-]. simpl. apply lookup_insert_eq.
Qed.

(** A hit changes nothing but the hit counter. *)
Lemma build_hit (self : Self) i (vs : list Value) (w : W) v :
  memo w !! make_key self i vs = Some v →
  build self i vs w = (Ok v, count_hit w).
Proof. intros Hm. unfold _build_statevector, cache. by rewrite Hm. Qed.

(** A miss runs the undecorated body once. *)
Lemma build_miss (self : Self) i (vs : list Value) (w : W) :
  memo w !! make_key self i vs = None →
  build self i vs w =
    match wrapped self i vs (count_miss w) with
    | (Ok v, w') => (Ok v, store (make_key self i vs) v w')
    | (Raise e, w') => (Raise e, w')
    end.
Proof. intros Hm. unfold _build_statevector, cache. by rewrite Hm. Qed.

Lemma memo_sound_build (self : Self) i (vs : list Value) (w : W) :
  memo_sound self w → memo_sound self (build self i vs w).2.
Proof.
  intros Hs. unfold _build_statevector, cache.
  destruct (memo w !! make_key self i vs) as [r|] eqn:Hm; [exact Hs|].
  destruct (wrapped_uniform self i vs) as (r & tr & Hu).
  rewrite Hu. destruct r as [v|e]; simpl.
  - intros j us u. simpl.
    destruct (decide (make_key self i vs = make_key self j us)) as [Heq|Hne].
    + rewrite Heq, lookup_insert_eq. intros [= <-].
      injection Heq as <- <-. eauto.
    + rewrite lookup_insert_ne by done. apply Hs.
  - exact Hs.
Qed.

Lemma memo_sound_after (self : Self) prior : memo_sound self (after self prior).
Proof.
  unfold Statevector_primitive.after.
  induction prior as [|call prior IH] using rev_ind.
  - intros i vs v Hm. simpl in Hm. by rewrite lookup_empty in Hm.
  - rewrite foldl_app. simpl. by apply memo_sound_build.
Qed.

(** Binding with a wrong number of values. *)
Lemma bind_circuit_mismatch (self : Self) i (vs : list Value) ps (w : W) :
  getitem (_parameters self) i = Ok ps →
  length vs ≠ length ps →
  bind_circuit self i vs w = (Raise (ValueError (length vs) (length ps)), w).
Proof.
  intros Hp Hl. unfold _bind_circuit_parameters, bind, lift, raise.
  rewrite Hp. by apply Nat.eqb_neq in Hl as ->.
Qed.

Lemma build_mismatch (self : Self) i (vs : list Value) ps (w : W) :
  getitem (_parameters self) i = Ok ps →
  length vs ≠ length ps →
  memo_sound self w →
  build self i vs w =
    (Raise (ValueError (length vs) (length ps)), count_miss w).
Proof.
  intros Hp Hl Hs.
  assert (Hw : ∀ w' : W, wrapped self i vs w' =
            (Raise (ValueError (length vs) (length ps)), w')).
  { intros w'. unfold _build_statevector__wrapped__, bind.
    by rewrite (bind_circuit_mismatch _ _ _ ps). }
  destruct (memo w !! make_key self i vs) as [v|] eqn:Hm.
  - destruct (Hs _ _ _ Hm) as [tr Htr]. specialize (Htr w).
    rewrite Hw in Htr. discriminate.
  - rewrite build_miss by done. by rewrite Hw.
Qed.

(** With the right number of values, no count-mismatch error comes out. *)
Lemma bind_circuit_match (self : Self) i (vs : list Value) ps (w : W) :
  getitem (_parameters self) i = Ok ps →
  length vs = length ps →
  is_count_mismatch (bind_circuit self i vs w).1 = false.
Proof.
  intros Hp Hl. unfold _bind_circuit_parameters, bind, lift, raise, ret.
  rewrite Hp. apply Nat.eqb_eq in Hl as ->. simpl.
  destruct (py_getitem (_circuits self) i) as [c|e] eqn:Hc.
  - destruct vs; [done|]. unfold call_bind_parameters, bind, log, lift.
    simpl. by destruct (bind_parameters _ _).
  - unfold py_getitem in Hc. repeat case_match; simplify_eq; done.
Qed.

Lemma wrapped_match (self : Self) i (vs : list Value) ps (w : W) :
  getitem (_parameters self) i = Ok ps →
  length vs = length ps →
  is_count_mismatch (wrapped self i vs w).1 = false.
Proof.
  intros Hp Hl. pose proof (bind_circuit_match self i vs ps w Hp Hl) as Hb.
  unfold _build_statevector__wrapped__, bind.
  destruct (bind_circuit self i vs w) as [[c|e] w'].
  - unfold call_Statevector, bind, log, lift. simpl.
    by destruct (Statevector_init c).
  - exact Hb.
Qed.

(** C1. Cache idempotence: when a call of [_build_statevector] on an object
    returned a state, the next call on the same object with the same
    [circuit_index] and [parameter_values] returns the same state, and it is
    a hit: no collaborator is called (neither the binding nor the evaluator),
    the table is unchanged, the miss counter is unchanged and the hit counter
    grows by one. *)
Theorem build_statevector_memoized
    (self : Self) i (vs : list Value) (w w1 : W) v :
  build self i vs w = (Ok v, w1) →
  ∃ w2, build self i vs w1 = (Ok v, w2) ∧
        calls w2 = calls w1 ∧ memo w2 = memo w1 ∧
        misses w2 = misses w1 ∧ hits w2 = S (hits w1).
Proof.
  intros Hfirst. apply build_returns_stored in Hfirst.
  exists (count_hit w1). split; [by apply build_hit|done].
Qed.

(** C2. Parameter-count mismatch: if [parameter_values] has another length
    than the parameter list declared for [circuit_index], then
    [_bind_circuit_parameters] raises the count-mismatch [ValueError] without
    touching the world, and so does [_build_statevector] after any sequence
    of earlier calls on the object, without calling a collaborator and
    without storing anything.  If the lengths are equal, neither raises that
    error, whatever the world. *)
Theorem count_mismatch_raises (self : Self) i (vs : list Value) ps :
  getitem (_parameters self) i = Ok ps →
  (length vs ≠ length ps →
     (∀ w : W, bind_circuit self i vs w =
        (Raise (ValueError (length vs) (length ps)), w)) ∧
     (∀ prior, ∃ w',
        build self i vs (after self prior) =
          (Raise (ValueError (length vs) (length ps)), w') ∧
        calls w' = calls (after self prior) ∧
        memo w' = memo (after self prior))) ∧
  (length vs = length ps →
     ∀ w : W,
       is_count_mismatch (bind_circuit self i vs w).1 = false ∧
       is_count_mismatch (build self i vs w).1 = false).
Proof.
  intros Hp. split.
  - intros Hl. split.
    + intros w. by apply bind_circuit_mismatch.
    + intros prior. exists (count_miss (after self prior)).
      split; [|done].
      apply build_mismatch; [done..|]. apply memo_sound_after.
  - intros Hl w. split; [by eapply bind_circuit_match|].
    unfold _build_statevector, cache.
    destruct (memo w !! make_key self i vs); [done|].
    pose proof (wrapped_match self i vs ps (count_miss w) Hp Hl) as Hw.
    by destruct (wrapped self i vs (count_miss w)) as [[r|e] w'].
Qed.

(** C3. A failed computation is not memoized: when [_build_statevector]
    raises, the table is left as it was and has no entry for the key; the
    next identical call is a miss, runs the body again (the same external
    calls are made once more) and raises the same error, again without
    storing anything. *)
Theorem failed_build_not_memoized
    (self : Self) i (vs : list Value) (w w1 : W) e :
  build self i vs w = (Raise e, w1) →
  memo w1 = memo w ∧
  memo w1 !! make_key self i vs = None ∧
  ∃ w2 tr,
    build self i vs w1 = (Raise e, w2) ∧
    wrapped self i vs (count_miss w1) = (Raise e, w2) ∧
    calls w1 = calls w ++ tr ∧ calls w2 = calls w1 ++ tr ∧
    misses w2 = S (misses w1) ∧ hits w2 = hits w1 ∧
    memo w2 = memo w1.
Proof.
  unfold _build_statevector at 1. unfold cache.
  destruct (memo w !! make_key self i vs) as [r|] eqn:Hm; [done|].
  destruct (wrapped_uniform self i vs) as (r & tr & Hu).
  rewrite Hu. destruct r as [v|e']; intros [= <- <-].
  split; [done|]. split; [done|].
  exists (add_calls tr (count_miss (add_calls tr (count_miss w)))), tr.
  rewrite build_miss by done. rewrite !Hu. done.
Qed.

(** C4. A circuit without declared parameters, called with the empty tuple:
    [_bind_circuit_parameters] returns the stored circuit itself and calls
    nothing; the body of [_build_statevector] makes exactly one external
    call, the evaluator on that stored circuit, and on a miss the decorated
    function returns (and stores) what the evaluator returned. *)
Theorem unparametrized_circuit_evaluated_directly (self : Self) i c :
  getitem (_parameters self) i = Ok [] →
  getitem (_circuits self) i = Ok c →
  (∀ w : W, bind_circuit self i [] w = (Ok c, w)) ∧
  (∀ w : W, wrapped self i [] w =
     (external (Statevector_init c), add_calls [StatevectorCall c] w)) ∧
  (∀ w : W, memo w !! make_key self i [] = None →
     build self i [] w =
       match Statevector_init c with
       | inr v => (Ok v, store (make_key self i []) v
                           (add_calls [StatevectorCall c] (count_miss w)))
       | inl x => (Raise (External x),
                   add_calls [StatevectorCall c] (count_miss w))
       end).
Proof.
  intros Hp Hc.
  assert (Hb : ∀ w : W, bind_circuit self i [] w = (Ok c, w)).
  { intros w. unfold _bind_circuit_parameters, bind, lift, ret.
    by rewrite Hp, Hc. }
  assert (Hw : ∀ w : W, wrapped self i [] w =
            (external (Statevector_init c), add_calls [StatevectorCall c] w)).
  { intros w. unfold _build_statevector__wrapped__, bind. by rewrite Hb. }
  split; [done|]. split; [done|].
  intros w Hm. rewrite build_miss, Hw by done.
  by destruct (Statevector_init c).
Qed.

(** C10. The empty tuple on a circuit that declares parameters: the length
    check comes first, so [_bind_circuit_parameters] raises the
    count-mismatch [ValueError] and so does [_build_statevector] after any
    earlier calls on the object, without an external call.  Conversely, if
    [_bind_circuit_parameters] returns a circuit for the empty tuple, the
    declared parameter list is empty, the circuit is the stored one and
    nothing was called. *)
Theorem empty_values_on_parametrized_circuit (self : Self) i :
  (∀ ps, getitem (_parameters self) i = Ok ps → ps ≠ [] →
     (∀ w : W, bind_circuit self i [] w =
        (Raise (ValueError 0 (length ps)), w)) ∧
     (∀ prior, ∃ w',
        build self i [] (after self prior) =
          (Raise (ValueError 0 (length ps)), w') ∧
        calls w' = calls (after self prior))) ∧
  (∀ (w w' : W) c, bind_circuit self i [] w = (Ok c, w') →
     getitem (_parameters self) i = Ok [] ∧
     getitem (_circuits self) i = Ok c ∧ w' = w).
Proof.
  split.
  - intros ps Hp Hne.
    assert (Hl : length (@nil Value) ≠ length ps) by by destruct ps.
    split.
    + intros w. by apply (bind_circuit_mismatch self i [] ps).
    + intros prior. exists (count_miss (after self prior)). split; [|done].
      apply (build_mismatch self i [] ps); [done..|]. apply memo_sound_after.
  - intros w w' c. unfold _bind_circuit_parameters, bind, lift, raise, ret.
    destruct (py_getitem (_parameters self) i) as [ps|]; [|done].
    destruct ps as [|p ps]; simpl; [|done].
    destruct (py_getitem (_circuits self) i) as [c'|]; [|done].
    by intros [= <- <-].
Qed.

(** ** Further properties of statevector_primitive.py *)

Lemma py_getitem_out_of_range {A} (l : list A) (i : Z) :
  (i < - Z.of_nat (length l) ∨ Z.of_nat (length l) ≤ i)%Z →
  getitem l i = Raise IndexError.
Proof.
  intros Hi. unfold py_getitem.
  destruct (i <? 0)%Z eqn:Hneg.
  - apply Z.ltb_lt in Hneg.
    destruct (0 <=? i + Z.of_nat (length l))%Z eqn:Hlo; simpl; [|done].
    apply Z.leb_le in Hlo. lia.
  - apply Z.ltb_ge in Hneg.
    destruct (0 <=? i)%Z; simpl; [|done].
    destruct (i <? Z.of_nat (length l))%Z eqn:Hhi; [|done].
    apply Z.ltb_lt in Hhi. lia.
Qed.

Lemma py_getitem_negative {A} (l : list A) (i : Z) :
  (- Z.of_nat (length l) ≤ i < 0)%Z →
  getitem l i = getitem l (i + Z.of_nat (length l)).
Proof.
  intros Hi. unfold py_getitem.
  assert ((i <? 0)%Z = true) as -> by (apply Z.ltb_lt; lia).
  by assert ((i + Z.of_nat (length l) <? 0)%Z = false) as ->
    by (apply Z.ltb_ge; lia).
Qed.

(** When the body raises whatever the world, the decorated function raises
    the same error after any sequence of calls on the object, as a miss. *)
Lemma build_raises (self : Self) i (vs : list Value) e (w : W) :
  (∀ w' : W, wrapped self i vs w' = (Raise e, w')) →
  memo_sound self w →
  build self i vs w = (Raise e, count_miss w).
Proof.
  intros Hw Hs.
  destruct (memo w !! make_key self i vs) as [v|] eqn:Hm.
  - destruct (Hs _ _ _ Hm) as [tr Htr]. specialize (Htr w).
    rewrite Hw in Htr. discriminate.
  - rewrite build_miss by done. by rewrite Hw.
Qed.

(** X1. An index outside the parameter lists of the object raises
    [IndexError] before anything else happens, and so does an index that has
    a parameter list of the right length but no circuit; no collaborator is
    called and nothing is stored. *)
Theorem index_out_of_range_raises (self : Self) i (vs : list Value) :
  ((i < - Z.of_nat (length (_parameters self))
    ∨ Z.of_nat (length (_parameters self)) ≤ i)%Z
   ∨ (∃ ps, getitem (_parameters self) i = Ok ps ∧ length vs = length ps ∧
        (i < - Z.of_nat (length (_circuits self))
         ∨ Z.of_nat (length (_circuits self)) ≤ i)%Z)) →
  (∀ w : W, bind_circuit self i vs w = (Raise IndexError, w)) ∧
  (∀ prior, ∃ w',
     build self i vs (after self prior) = (Raise IndexError, w') ∧
     calls w' = calls (after self prior) ∧
     memo w' = memo (after self prior)).
Proof.
  intros Hi.
  assert (Hb : ∀ w : W, bind_circuit self i vs w = (Raise IndexError, w)).
  { intros w. unfold _bind_circuit_parameters, bind, lift, raise.
    destruct Hi as [Hi|(ps & Hp & Hl & Hi)].
    - by rewrite py_getitem_out_of_range.
    - rewrite Hp. apply Nat.eqb_eq in Hl as ->. simpl.
      by rewrite py_getitem_out_of_range. }
  split; [done|]. intros prior. exists (count_miss (after self prior)).
  split; [|done]. apply build_raises; [|apply memo_sound_after].
  intros w'. unfold _build_statevector__wrapped__, bind. by rewrite Hb.
Qed.

(** X2. A negative index counts from the end: when the object has as many
    parameter lists as circuits, index [i] with [-n <= i < 0] binds and
    evaluates exactly like index [i + n].  The cache however keys on the
    index as given: a call with one of the two spellings leaves the entry of
    the other as it was. *)
Theorem negative_index_counts_from_end (self : Self) i (vs : list Value) n :
  length (_parameters self) = n →
  length (_circuits self) = n →
  (- Z.of_nat n ≤ i < 0)%Z →
  (∀ w : W, bind_circuit self i vs w
            = bind_circuit self (i + Z.of_nat n) vs w) ∧
  (∀ w : W, wrapped self i vs w = wrapped self (i + Z.of_nat n) vs w) ∧
  (∀ w : W, memo (build self (i + Z.of_nat n) vs w).2 !! make_key self i vs
            = memo w !! make_key self i vs).
Proof.
  intros Hp Hc Hi.
  assert (Hb : ∀ w : W, bind_circuit self i vs w
                        = bind_circuit self (i + Z.of_nat n) vs w).
  { intros w. unfold _bind_circuit_parameters, bind, lift.
    rewrite (py_getitem_negative (_parameters self)) by lia.
    rewrite (py_getitem_negative (_circuits self)) by lia.
    by rewrite Hp, Hc. }
  split; [done|]. split.
  - intros w. unfold _build_statevector__wrapped__, bind. by rewrite Hb.
  - intros w. unfold _build_statevector, cache.
    destruct (memo w !! make_key self (i + Z.of_nat n) vs); [done|].
    destruct (wrapped_uniform self (i + Z.of_nat n) vs) as (r & tr & Hu).
    rewrite Hu. destruct r as [v|e]; [|done]. simpl.
    apply lookup_insert_ne. unfold make_key. intros [= Heq]. lia.
Qed.

(** X5. The table only grows: a call changes no entry other than the one of
    its own key, every entry stored before the call is still there with the
    same state (nothing is evicted or overwritten), and the entries of an
    object with another identity are untouched. *)
Theorem build_keeps_other_entries (self : Self) i (vs : list Value) (w : W) :
  (∀ key, key ≠ make_key self i vs →
     memo (build self i vs w).2 !! key = memo w !! key) ∧
  memo w ⊆ memo (build self i vs w).2 ∧
  (∀ (other : Self) j us, self_id other ≠ self_id self →
     memo (build self i vs w).2 !! make_key other j us
     = memo w !! make_key other j us).
Proof.
  assert (Hcases : memo (build self i vs w).2 = memo w ∨
     ∃ v, memo w !! make_key self i vs = None ∧
          memo (build self i vs w).2 = <[make_key self i vs := v]> (memo w)).
  { unfold _build_statevector, cache.
    destruct (memo w !! make_key self i vs) as [v|] eqn:Hm; [by left|].
    destruct (wrapped_uniform self i vs) as (r & tr & Hu). rewrite Hu.
    destruct r as [v|e]; [right; by exists v|by left]. }
  assert (Hother : ∀ key, key ≠ make_key self i vs →
            memo (build self i vs w).2 !! key = memo w !! key).
  { intros key Hne. destruct Hcases as [->|(v & _ & ->)]; [done|].
    by apply lookup_insert_ne. }
  split; [done|]. split.
  - destruct Hcases as [->|(v & Hnone & ->)]; [done|].
    by apply insert_subseteq.
  - intros other j us Hid. apply Hother. unfold make_key. congruence.
Qed.

(** X6. The cache does not see later changes to the object: once a call
    returned a state, a call with the same arguments on the object with the
    same identity returns that state as a hit, whatever the circuits and
    parameter lists of the object have become. *)
Theorem cache_ignores_object_changes
    (self self' : Self) i (vs : list Value) (w w1 : W) v :
  self_id self' = self_id self →
  build self i vs w = (Ok v, w1) →
  build self' i vs w1 = (Ok v, count_hit w1).
Proof.
  intros Hid Hfirst. apply build_returns_stored in Hfirst.
  apply build_hit. unfold make_key in *. by rewrite Hid.
Qed.

(** X7. Memoization is transparent: after any sequence of calls on an
    object, [_build_statevector] returns or raises exactly what its
    undecorated body returns or raises for the same arguments. *)
Theorem build_agrees_with_body (self : Self) prior i (vs : list Value) (w : W) :
  (build self i vs (after self prior)).1 = (wrapped self i vs w).1.
Proof.
  pose proof (memo_sound_after self prior) as Hs.
  destruct (wrapped_uniform self i vs) as (r & tr & Hu).
  destruct (memo (after self prior) !! make_key self i vs) as [v|] eqn:Hm.
  - rewrite (build_hit self i vs _ v) by done.
    destruct (Hs _ _ _ Hm) as [tr' Htr']. by rewrite Htr'.
  - rewrite build_miss by done. rewrite !Hu. by destruct r.
Qed.

(** [dict] appends like a Python dictionary assignment. *)
Lemma dict_snoc `{Countable K} {V} (pairs : list (K * V)) k v :
  dict (pairs ++ [(k, v)]) = <[k := v]> (dict pairs).
Proof. unfold dict. by rewrite foldl_app. Qed.

Lemma dict_list_to_map `{Countable K} {V} (pairs : list (K * V)) :
  dict pairs = list_to_map (reverse pairs).
Proof.
  induction pairs as [|[k v] pairs IH] using rev_ind; [done|].
  by rewrite dict_snoc, reverse_snoc, list_to_map_cons, IH.
Qed.

Lemma dict_lookup_NoDup `{Countable K} {V} (pairs : list (K * V)) k v :
  NoDup pairs.*1 → dict pairs !! k = Some v ↔ (k, v) ∈ pairs.
Proof.
  intros Hnd. rewrite dict_list_to_map, <-elem_of_list_to_map.
  - apply elem_of_reverse.
  - by rewrite fmap_reverse, reverse_Permutation.
Qed.

Lemma dict_dom `{Countable K} {V} (pairs : list (K * V)) :
  dom (dict pairs) = list_to_set pairs.*1.
Proof.
  rewrite dict_list_to_map, dom_list_to_map_L, fmap_reverse.
  apply set_eq. intros k. by rewrite !elem_of_list_to_set, elem_of_reverse.
Qed.

(** Binding a non-empty tuple of the right length makes one call of
    [bind_parameters], on the stored circuit. *)
Lemma bind_circuit_calls (self : Self) i (vs : list Value) ps c (w : W) :
  getitem (_parameters self) i = Ok ps →
  getitem (_circuits self) i = Ok c →
  length vs = length ps →
  vs ≠ [] →
  bind_circuit self i vs w
  = (external (bind_parameters c (dict (zip ps vs))),
     add_calls [BindCall c (dict (zip ps vs))] w).
Proof.
  intros Hp Hc Hl Hne. unfold _bind_circuit_parameters, bind, lift.
  rewrite Hp. apply Nat.eqb_eq in Hl as ->. simpl. rewrite Hc.
  by destruct vs.
Qed.

(** X3. Values are bound by position: for a non-empty tuple of the right
    length, [bind_parameters] is called once, on the stored circuit, with a
    mapping whose keys are exactly the declared parameters and, when these
    are distinct, whose value at the k-th declared parameter is the k-th
    value of the tuple. *)
Theorem bind_maps_parameters_by_position
    (self : Self) i (vs : list Value) ps c :
  getitem (_parameters self) i = Ok ps →
  getitem (_circuits self) i = Ok c →
  length vs = length ps →
  vs ≠ [] →
  (∀ w : W, bind_circuit self i vs w
     = (external (bind_parameters c (dict (zip ps vs))),
        add_calls [BindCall c (dict (zip ps vs))] w)) ∧
  dom (dict (zip ps vs)) = list_to_set ps ∧
  (NoDup ps → ∀ k p v, ps !! k = Some p → vs !! k = Some v →
     dict (zip ps vs) !! p = Some v).
Proof.
  intros Hp Hc Hl Hne.
  assert (Hfst : (zip ps vs).*1 = ps) by (apply fst_zip; lia).
  split; [|split].
  - intros w. by apply bind_circuit_calls.
  - by rewrite dict_dom, Hfst.
  - intros Hnd k p v Hk Hv. apply dict_lookup_NoDup; [by rewrite Hfst|].
    by eapply (elem_of_lookup_zip_with_2 pair).
Qed.

(** X4. A miss on a non-empty tuple of the right length binds, then
    evaluates: if [bind_parameters] raises, its error comes out, the
    evaluator is not called and nothing is stored; otherwise the evaluator
    is called once, on the bound circuit, its error comes out unstored or
    its state is returned and stored. *)
Theorem build_binds_then_evaluates
    (self : Self) i (vs : list Value) ps c (w : W) :
  getitem (_parameters self) i = Ok ps →
  getitem (_circuits self) i = Ok c →
  length vs = length ps →
  vs ≠ [] →
  memo w !! make_key self i vs = None →
  build self i vs w =
    match bind_parameters c (dict (zip ps vs)) with
    | inl x =>
        (Raise (External x),
         add_calls [BindCall c (dict (zip ps vs))] (count_miss w))
    | inr bound =>
        match Statevector_init bound with
        | inl x =>
            (Raise (External x),
             add_calls [BindCall c (dict (zip ps vs)); StatevectorCall bound]
                       (count_miss w))
        | inr v =>
            (Ok v, store (make_key self i vs) v
               (add_calls [BindCall c (dict (zip ps vs));
                           StatevectorCall bound] (count_miss w)))
        end
    end.
Proof.
  intros Hp Hc Hl Hne Hm. rewrite build_miss by done.
  unfold _build_statevector__wrapped__, bind.
  rewrite (bind_circuit_calls self i vs ps c) by done.
  destruct (bind_parameters c (dict (zip ps vs))) as [x|bound]; simpl; [done|].
  unfold call_Statevector, bind, log, lift. simpl. rewrite add_calls_app.
  by destruct (Statevector_init bound).
Qed.

Lemma count_evaluations_app (tr1 tr2 : list (@Call Circuit Param Value _ _)) :
  count_evaluations (tr1 ++ tr2)
  = count_evaluations tr1 + count_evaluations tr2.
Proof. unfold count_evaluations. by rewrite filter_app, length_app. Qed.

(** Binding never calls the evaluator. *)
Lemma bind_circuit_trace (self : Self) i (vs : list Value) :
  ∃ r tr, (∀ w : W, bind_circuit self i vs w = (r, add_calls tr w)) ∧
          count_evaluations tr = 0.
Proof.
  unfold _bind_circuit_parameters, bind, lift, raise, ret.
  destruct (py_getitem (_parameters self) i) as [ps|e].
  2:{ exists (Raise e), []. split; [|done]. intros w. by rewrite add_calls_nil. }
  destruct (negb (length vs =? length ps)).
  { eexists (Raise _), []. split; [|done]. intros w. by rewrite add_calls_nil. }
  destruct (py_getitem (_circuits self) i) as [c|e].
  2:{ exists (Raise e), []. split; [|done]. intros w. by rewrite add_calls_nil. }
  destruct vs as [|v vs].
  { exists (Ok c), []. split; [|done]. intros w. by rewrite add_calls_nil. }
  eexists _, [_]. split.
  - intros w. unfold call_bind_parameters, bind, log, lift. reflexivity.
  - done.
Qed.

(** A run of the body that returns has called the evaluator exactly once. *)
Lemma wrapped_trace (self : Self) i (vs : list Value) :
  ∃ r tr, (∀ w : W, wrapped self i vs w = (r, add_calls tr w)) ∧
          (∀ v, r = Ok v → count_evaluations tr = 1).
Proof.
  destruct (bind_circuit_trace self i vs) as (r & tr & Hb & Hcount).
  unfold _build_statevector__wrapped__, bind.
  destruct r as [c|e].
  - exists (external (Statevector_init c)), (tr ++ [StatevectorCall c]).
    split.
    + intros w. rewrite Hb. unfold call_Statevector, bind, log, lift. simpl.
      by rewrite add_calls_app.
    + intros v _. by rewrite count_evaluations_app, Hcount.
  - exists (Raise e), tr. split; [|done]. intros w. by rewrite Hb.
Qed.

(** X8. Each distinct key is evaluated once: after a sequence of calls on an
    object whose computations all return, the evaluator has been called as
    many times as there are distinct (circuit_index, parameter_values) pairs
    in the sequence, and the table holds exactly these pairs. *)
Theorem each_key_evaluated_once (self : Self) (prior : list (Z * list Value)) :
  (∀ call, call ∈ prior →
     ∃ v, (wrapped self call.1 call.2 empty_world).1 = Ok v) →
  count_evaluations (calls (after self prior))
  = size (list_to_set prior : gset (Z * list Value)) ∧
  (∀ i vs, is_Some (memo (after self prior) !! make_key self i vs)
           ↔ (i, vs) ∈ prior).
Proof.
  unfold Statevector_primitive.after.
  induction prior as [|[i vs] prior IH] using rev_ind; intros Hret.
  { split; [done|]. intros i vs. simpl. rewrite lookup_empty.
    split; [by intros [? ?]|by intros ?%elem_of_nil]. }
  destruct IH as [IHcount IHmemo].
  { intros call Hin. apply Hret. apply elem_of_app. by left. }
  rewrite foldl_app. simpl.
  set (w := foldl _ empty_world prior) in *.
  rewrite list_to_set_snoc_L.
  destruct (memo w !! make_key self i vs) as [v|] eqn:Hm.
  - rewrite (build_hit self i vs w v) by done. simpl.
    assert (Hin : (i, vs) ∈ prior) by (apply IHmemo; eauto).
    split.
    + rewrite IHcount. f_equal. rewrite union_comm_L.
      symmetry. apply subseteq_union_1_L, singleton_subseteq_l.
      by apply elem_of_list_to_set.
    + intros j us. rewrite IHmemo, elem_of_app, list_elem_of_singleton.
      split; [by left|]. by intros [?|[= -> ->]].
  - assert (Hnotin : (i, vs) ∉ prior).
    { intros Hin%IHmemo. rewrite Hm in Hin. by destruct Hin. }
    destruct (wrapped_trace self i vs) as (r & tr & Hu & Hone).
    destruct (Hret (i, vs)) as [v Hv].
    { apply elem_of_app. right. by apply list_elem_of_singleton. }
    simpl in Hv. rewrite Hu in Hv. simpl in Hv. subst r.
    rewrite build_miss by done. rewrite Hu. simpl. split.
    + rewrite count_evaluations_app, (Hone v) by done.
      rewrite size_union, size_singleton.
      2:{ apply disjoint_singleton_r. by rewrite elem_of_list_to_set. }
      unfold count_miss. simpl. by rewrite IHcount.
    + intros j us. rewrite elem_of_app, list_elem_of_singleton, <-IHmemo.
      destruct (decide ((j, us) = (i, vs))) as [[= -> ->]|Hne].
      * rewrite lookup_insert_eq. split; [by right|eauto].
      * rewrite lookup_insert_ne by (unfold make_key; congruence).
        split; [by left|]. by intros [?|?].
Qed.

End WithCollaborators.

(** ** The theorems at work on the demo collaborators *)

Lemma build_statevector_memoized_witness :
  ∃ w2, Demo.build Demo.estimator 0 [3; 4]%Z
          (Demo.build Demo.estimator 0 [3; 4]%Z empty_world).2
        = (Ok [3; 5; 4]%Z, w2) ∧
        calls w2 = [BindCall [Demo.Free 0; Demo.Bound 5; Demo.Free 1]
                      (dict [(0, 3%Z); (1, 4%Z)]);
                    StatevectorCall
                      [Demo.Bound 3; Demo.Bound 5; Demo.Bound 4]].
Proof.
  destruct (build_statevector_memoized Demo.bind_parameters
              Demo.Statevector_init Demo.estimator 0 [3; 4]%Z empty_world
              (Demo.build Demo.estimator 0 [3; 4]%Z empty_world).2
              [3; 5; 4]%Z) as (w2 & Hsecond & Hcalls & _).
  { vm_compute. reflexivity. }
  exists w2. split; [exact Hsecond|]. rewrite Hcalls. vm_compute. reflexivity.
Defined.

Lemma count_mismatch_raises_witness :
  Demo.bind_circuit Demo.estimator 0 [3]%Z empty_world
  = (Raise (ValueError 1 2), empty_world) ∧
  (∃ w', Demo.build Demo.estimator 0 [3]%Z
           (Demo.after Demo.estimator [(0, [3; 4]); (1, [])]%Z)
         = (Raise (ValueError 1 2), w')) ∧
  is_count_mismatch
    (Demo.build Demo.estimator 0 [3; 4]%Z empty_world).1 = false.
Proof.
  pose proof (count_mismatch_raises Demo.bind_parameters
                Demo.Statevector_init Demo.estimator 0 [3]%Z [0; 1] eq_refl)
    as [Hmismatch _].
  pose proof (count_mismatch_raises Demo.bind_parameters
                Demo.Statevector_init Demo.estimator 0 [3; 4]%Z [0; 1] eq_refl)
    as [_ Hmatch].
  destruct Hmismatch as [Hbind Hbuild]; [simpl; lia|].
  split; [apply Hbind|]. split.
  - destruct (Hbuild [(0, [3; 4]); (1, [])]%Z) as (w' & Hw' & _).
    exists w'. exact Hw'.
  - apply Hmatch. reflexivity.
Defined.

Lemma failed_build_not_memoized_witness :
  ∃ w2,
    Demo.build Demo.estimator 2 [9]%Z
      (Demo.build Demo.estimator 2 [9]%Z empty_world).2
    = (Raise (External tt), w2) ∧
    memo w2 = ∅ ∧
    calls w2 = [BindCall [Demo.Free 0; Demo.Free 3] (dict [(0, 9%Z)]);
                StatevectorCall [Demo.Bound 9; Demo.Free 3];
                BindCall [Demo.Free 0; Demo.Free 3] (dict [(0, 9%Z)]);
                StatevectorCall [Demo.Bound 9; Demo.Free 3]].
Proof.
  destruct (failed_build_not_memoized Demo.bind_parameters
              Demo.Statevector_init Demo.estimator 2 [9]%Z empty_world
              (Demo.build Demo.estimator 2 [9]%Z empty_world).2
              (External tt))
    as (Hmemo & _ & w2 & tr & Hsecond & Hbody & _ & _ & _ & _ & Hmemo2).
  { vm_compute. reflexivity. }
  exists w2. split; [exact Hsecond|]. split.
  - rewrite Hmemo2, Hmemo. reflexivity.
  - vm_compute in Hbody. by injection Hbody as <-.
Defined.

Lemma unparametrized_circuit_evaluated_directly_witness :
  Demo.bind_circuit Demo.estimator 1 [] empty_world
  = (Ok [Demo.Bound 7], empty_world) ∧
  Demo.wrapped Demo.estimator 1 [] empty_world
  = (Ok [7%Z], add_calls [StatevectorCall [Demo.Bound 7]] empty_world).
Proof.
  destruct (unparametrized_circuit_evaluated_directly Demo.bind_parameters
              Demo.Statevector_init Demo.estimator 1 [Demo.Bound 7]
              eq_refl eq_refl) as (Hbind & Hwrapped & _).
  split; [apply Hbind|apply Hwrapped].
Defined.

Lemma empty_values_on_parametrized_circuit_witness :
  Demo.bind_circuit Demo.estimator 0 [] empty_world
  = (Raise (ValueError 0 2), empty_world) ∧
  ∃ w', Demo.build Demo.estimator 0 []
          (Demo.after Demo.estimator [(1%Z, [])])
        = (Raise (ValueError 0 2), w').
Proof.
  destruct (empty_values_on_parametrized_circuit Demo.bind_parameters
              Demo.Statevector_init Demo.estimator 0) as [Hraise _].
  destruct (Hraise [0; 1] eq_refl) as [Hbind Hbuild]; [done|].
  split; [apply Hbind|].
  destruct (Hbuild [(1%Z, [])]) as (w' & Hw' & _). exists w'. exact Hw'.
Defined.

Lemma index_out_of_range_raises_witness :
  Demo.bind_circuit Demo.estimator 3 [9]%Z empty_world
  = (Raise IndexError, empty_world) ∧
  Demo.bind_circuit Demo.estimator (-4) [] empty_world
  = (Raise IndexError, empty_world) ∧
  ∃ w', Demo.build Demo.estimator 3 [9]%Z
          (Demo.after Demo.estimator [(0, [3; 4])]%Z)
        = (Raise IndexError, w').
Proof.
  destruct (index_out_of_range_raises Demo.bind_parameters
              Demo.Statevector_init Demo.estimator 3 [9]%Z)
    as [Hbind Hbuild]; [left; simpl; lia|].
  destruct (index_out_of_range_raises Demo.bind_parameters
              Demo.Statevector_init Demo.estimator (-4) [])
    as [Hbind' _]; [left; simpl; lia|].
  split; [apply Hbind|]. split; [apply Hbind'|].
  destruct (Hbuild [(0, [3; 4])]%Z) as (w' & Hw' & _). by exists w'.
Defined.

Lemma negative_index_counts_from_end_witness :
  Demo.wrapped Demo.estimator (-2) [] empty_world
  = (Ok [7%Z], add_calls [StatevectorCall [Demo.Bound 7]] empty_world) ∧
  memo (Demo.build Demo.estimator 1 [] empty_world).2
    !! make_key Demo.estimator (-2) [] = None.
Proof.
  destruct (negative_index_counts_from_end Demo.bind_parameters
              Demo.Statevector_init Demo.estimator (-2) [] 3 eq_refl eq_refl)
    as (_ & Hwrapped & Hmemo); [lia|].
  split.
  - rewrite Hwrapped. vm_compute. reflexivity.
  - apply (Hmemo empty_world).
Defined.

Lemma bind_maps_parameters_by_position_witness :
  dict (zip [0; 1] [3; 4]%Z) !! 1 = Some 4%Z ∧
  Demo.bind_circuit Demo.estimator 0 [3; 4]%Z empty_world
  = (Ok [Demo.Bound 3; Demo.Bound 5; Demo.Bound 4],
     add_calls [BindCall [Demo.Free 0; Demo.Bound 5; Demo.Free 1]
                  (dict (zip [0; 1] [3; 4]%Z))] empty_world).
Proof.
  destruct (bind_maps_parameters_by_position Demo.bind_parameters
              (Statevector:=list Z) Demo.estimator 0 [3; 4]%Z [0; 1]
              [Demo.Free 0; Demo.Bound 5; Demo.Free 1]
              eq_refl eq_refl eq_refl) as (Hbind & _ & Hlookup); [done|].
  split.
  - apply (Hlookup (NoDup_seq 0 2) 1); reflexivity.
  - rewrite Hbind. vm_compute. reflexivity.
Defined.

Lemma build_binds_then_evaluates_witness :
  Demo.build Demo.estimator 2 [9]%Z empty_world
  = (Raise (External tt),
     add_calls [BindCall [Demo.Free 0; Demo.Free 3] (dict (zip [0] [9%Z]));
                StatevectorCall [Demo.Bound 9; Demo.Free 3]]
               (count_miss empty_world)).
Proof.
  unfold Demo.build.
  rewrite (build_binds_then_evaluates Demo.bind_parameters
             Demo.Statevector_init Demo.estimator 2 [9]%Z [0]
             [Demo.Free 0; Demo.Free 3] empty_world
             eq_refl eq_refl eq_refl); [|done|done].
  vm_compute. reflexivity.
Defined.

Lemma build_keeps_other_entries_witness :
  memo (Demo.build Demo.estimator 0 [3; 4]%Z
          (Demo.after Demo.estimator [(1%Z, [])])).2
    !! make_key Demo.estimator 1 []
  = Some [7%Z].
Proof.
  destruct (build_keeps_other_entries Demo.bind_parameters
              Demo.Statevector_init Demo.estimator 0 [3; 4]%Z
              (Demo.after Demo.estimator [(1%Z, [])])) as [Hother _].
  unfold Demo.build. rewrite Hother; [|done]. vm_compute. reflexivity.
Defined.

Lemma cache_ignores_object_changes_witness :
  let changed := {| self_id := 1%positive;
                    _circuits := [[Demo.Bound 0]];
                    _parameters := [[]] |} in
  Demo.build changed 0 [3; 4]%Z
    (Demo.build Demo.estimator 0 [3; 4]%Z empty_world).2
  = (Ok [3; 5; 4]%Z,
     count_hit (Demo.build Demo.estimator 0 [3; 4]%Z empty_world).2).
Proof.
  intros changed.
  apply (cache_ignores_object_changes Demo.bind_parameters
           Demo.Statevector_init Demo.estimator changed 0 [3; 4]%Z
           empty_world).
  - reflexivity.
  - vm_compute. reflexivity.
Defined.

Lemma each_key_evaluated_once_witness :
  count_evaluations
    (calls (Demo.after Demo.estimator
              [(0, [3; 4]); (1, []); (0, [3; 4]); (-2, [])]%Z))
  = 3.
Proof.
  destruct (each_key_evaluated_once Demo.bind_parameters
              Demo.Statevector_init Demo.estimator
              [(0, [3; 4]); (1, []); (0, [3; 4]); (-2, [])]%Z)
    as [Hcount _].
  - intros call Hin.
    repeat (apply elem_of_cons in Hin as [->|Hin]);
      [by eexists..|by apply elem_of_nil in Hin].
  - unfold Demo.after. rewrite Hcount. vm_compute. reflexivity.
Defined.

End Statevector_primitive_proofs.

(** * Properties of the model of backend_estimator_dev.py *)
Module Backend_estimator_proofs.
Import Backend_estimator.

(** ** Measurement circuits *)

Lemma label_at_not_I_lt (pauli : PauliTerm) q :
  label_at pauli q ≠ LI → q < length pauli.
Proof.
  unfold label_at. intros Hq. apply lookup_lt_is_Some.
  destruct (pauli !! q); [eauto|done].
Qed.

(** The indices with a label other than I, before the all-I convention. *)
Lemma elem_of_non_identity (pauli : PauliTerm) q :
  q ∈ filter (λ q, label_at pauli q ≠ LI) (seq 0 (length pauli))
  ↔ label_at pauli q ≠ LI.
Proof.
  rewrite list_elem_of_filter, elem_of_seq. split; [tauto|].
  intros Hq. split; [done|]. apply label_at_not_I_lt in Hq. lia.
Qed.

Lemma seq_StronglySorted j n : StronglySorted lt (seq j n).
Proof.
  revert j. induction n as [|n IH]; intros j; simpl; constructor; [done|].
  apply Forall_forall. intros k Hk%elem_of_seq. lia.
Qed.

Lemma filter_StronglySorted (P : nat → Prop) `{!∀ x, Decision (P x)} l :
  StronglySorted lt l → StronglySorted lt (filter P l).
Proof.
  induction 1 as [|x l Hl IH Hx]; [constructor|].
  rewrite filter_cons. case_decide; [|done].
  constructor; [done|]. apply Forall_forall. intros y [_ Hy]%list_elem_of_filter.
  by eapply Forall_forall in Hx.
Qed.

Lemma measured_qubit_indices_some (pauli : PauliTerm) q0 :
  label_at pauli q0 ≠ LI →
  measured_qubit_indices pauli
  = filter (λ q, label_at pauli q ≠ LI) (seq 0 (length pauli)).
Proof.
  intros Hq%elem_of_non_identity. unfold measured_qubit_indices.
  destruct (filter _ _); [by apply elem_of_nil in Hq|done].
Qed.

Lemma measured_qubit_indices_identity (pauli : PauliTerm) :
  (∀ q, label_at pauli q = LI) → measured_qubit_indices pauli = [0].
Proof.
  intros Hall. unfold measured_qubit_indices.
  destruct (filter _ _) as [|q l] eqn:Hf; [done|].
  assert (Hq : q ∈ filter (λ q, label_at pauli q ≠ LI) (seq 0 (length pauli)))
    by (rewrite Hf; left).
  apply elem_of_non_identity in Hq. by destruct Hq.
Qed.

Lemma measured_qubit_indices_NoDup (pauli : PauliTerm) :
  NoDup (measured_qubit_indices pauli).
Proof.
  unfold measured_qubit_indices.
  pose proof (NoDup_filter (λ q, label_at pauli q ≠ LI) _
                (NoDup_seq 0 (length pauli))) as Hnd.
  destruct (filter _ _); [apply NoDup_singleton|done].
Qed.

Lemma enumerate_snd {A} (l : list A) : (enumerate l).*2 = l.
Proof. unfold enumerate. apply snd_zip. by rewrite length_seq. Qed.

Lemma enumerate_fst {A} (l : list A) : (enumerate l).*1 = seq 0 (length l).
Proof. unfold enumerate. apply fst_zip. by rewrite length_seq. Qed.

Lemma as_measurement_basis_change label q :
  omap as_measurement (basis_change label q) = [].
Proof. by destruct label. Qed.

(** The measurement instructions are one per (classical bit, qubit) pair, in
    the order of the pairs. *)
Lemma measurements_measure_qubit pauli (pairs : list (nat * nat)) :
  omap as_measurement (pairs ≫= measure_qubit pauli)
  = (λ cq, (cq.2, cq.1)) <$> pairs.
Proof.
  induction pairs as [|[c q] pairs IH]; [done|].
  rewrite bind_cons, omap_app, IH. unfold measure_qubit.
  by rewrite omap_app, as_measurement_basis_change.
Qed.

Lemma filter_touches_cons q i (l : list Instruction) :
  filter (λ i, touches q i) (i :: l)
  = if touches q i then i :: filter (λ i, touches q i) l
    else filter (λ i, touches q i) l.
Proof. rewrite filter_cons. by destruct (touches q i). Qed.

Lemma touches_basis_change label q q' :
  q ≠ q' → filter (λ i, touches q' i) (basis_change label q) = [].
Proof.
  intros Hne. destruct label; simpl; try done;
    rewrite !filter_touches_cons; simpl; by rewrite !bool_decide_false.
Qed.

Lemma touches_basis_change_same label q :
  filter (λ i, touches q i) (basis_change label q) = basis_change label q.
Proof.
  destruct label; simpl; try done;
    rewrite !filter_touches_cons; simpl; by rewrite !bool_decide_true.
Qed.

Lemma wire_measure_qubit_other pauli q (pairs : list (nat * nat)) :
  q ∉ pairs.*2 →
  filter (λ i, touches q i) (pairs ≫= measure_qubit pauli) = [].
Proof.
  induction pairs as [|[c q'] pairs IH]; [done|].
  rewrite fmap_cons, not_elem_of_cons, bind_cons, filter_app. simpl.
  intros [Hne Hnot]. rewrite IH by done. rewrite filter_app.
  rewrite touches_basis_change by done.
  rewrite filter_touches_cons. simpl. by rewrite bool_decide_false.
Qed.

Lemma wire_measure_qubit pauli q c (pairs : list (nat * nat)) :
  NoDup pairs.*2 → (c, q) ∈ pairs →
  filter (λ i, touches q i) (pairs ≫= measure_qubit pauli)
  = basis_change (label_at pauli q) q ++ [OpMeasure q c].
Proof.
  induction pairs as [|[c' q'] pairs IH]; [by intros _ ?%elem_of_nil|].
  rewrite fmap_cons, NoDup_cons, bind_cons, filter_app. simpl.
  intros [Hnot Hnd] [[= <- <-]|Hin]%elem_of_cons.
  - rewrite wire_measure_qubit_other by done.
    rewrite filter_app, touches_basis_change_same, app_nil_r.
    rewrite filter_touches_cons. simpl. by rewrite bool_decide_true.
  - assert (q' ≠ q) as Hne.
    { intros ->. apply Hnot. apply list_elem_of_fmap. by exists (c, q). }
    rewrite IH by done. rewrite filter_app, touches_basis_change by done.
    rewrite filter_touches_cons. simpl. by rewrite bool_decide_false.
Qed.

Lemma measurements_build_pauli_measurement (pauli : PauliTerm) :
  measurements (_build_pauli_measurement pauli)
  = (λ cq, (cq.2, cq.1)) <$> enumerate (measured_qubit_indices pauli).
Proof. apply measurements_measure_qubit. Qed.

Lemma measured_build_pauli_measurement (pauli : PauliTerm) :
  (measurements (_build_pauli_measurement pauli)).*1
  = measured_qubit_indices pauli.
Proof.
  rewrite measurements_build_pauli_measurement, <-list_fmap_compose.
  apply enumerate_snd.
Qed.

(** C5. For every Pauli term, [build_pauli_measurement] measures exactly the
    qubits whose label is not I, in increasing qubit order, the k-th of them
    into classical bit k, with as many classical bits as measured qubits; on
    a measured qubit the instructions are a Hadamard and the measurement for
    X, an inverse-S, a Hadamard and the measurement for Y, and the
    measurement alone otherwise; nothing acts on an unmeasured qubit; the
    all-I term measures qubit 0; and the metadata is exactly the tuple of
    measured qubits ((0,) for the all-I term). *)
Theorem build_pauli_measurement_spec (pauli : PauliTerm) :
  let circuit := _build_pauli_measurement pauli in
  let measured := (measurements circuit).*1 in
  ((∃ q, label_at pauli q ≠ LI) →
     StronglySorted lt measured ∧
     ∀ q, q ∈ measured ↔ label_at pauli q ≠ LI) ∧
  ((∀ q, label_at pauli q = LI) → measured = [0]) ∧
  (measurements circuit).*2 = seq 0 (length measured) ∧
  num_clbits circuit = length measured ∧
  num_qubits circuit = length pauli ∧
  (∀ q c, (q, c) ∈ measurements circuit →
     wire q circuit =
       match label_at pauli q with
       | LX => [OpH q; OpMeasure q c]
       | LY => [OpSdg q; OpH q; OpMeasure q c]
       | LZ | LI => [OpMeasure q c]
       end) ∧
  (∀ q, q ∉ measured → wire q circuit = []) ∧
  metadata circuit
  = {[ "measured_qubit_indices"%string := MetaIndices measured ]}.
Proof.
  intros circuit measured.
  assert (Hmeasured : measured = measured_qubit_indices pauli)
    by apply measured_build_pauli_measurement.
  assert (Hpairs : measurements circuit
            = (λ cq, (cq.2, cq.1)) <$> enumerate (measured_qubit_indices pauli))
    by apply measurements_build_pauli_measurement.
  rewrite Hmeasured, Hpairs. clear Hmeasured Hpairs measured.
  split; [|split; [|split; [|split; [|split; [|split; [|split]]]]]].
  - intros [q0 Hq0]. rewrite (measured_qubit_indices_some _ q0) by done.
    split; [apply filter_StronglySorted, seq_StronglySorted|].
    intros q. apply elem_of_non_identity.
  - apply measured_qubit_indices_identity.
  - rewrite <-list_fmap_compose. apply enumerate_fst.
  - done.
  - done.
  - intros q c Hin.
    apply list_elem_of_fmap in Hin as ([c' q'] & [= -> ->] & Hin).
    unfold wire, circuit. simpl.
    rewrite (wire_measure_qubit pauli q' c');
      [by destruct (label_at pauli q')| |done].
    rewrite enumerate_snd. apply measured_qubit_indices_NoDup.
  - intros q Hq. unfold wire, circuit. simpl.
    apply wire_measure_qubit_other. by rewrite enumerate_snd.
  - done.
Qed.

Lemma build_pauli_measurement_spec_witness :
  StronglySorted lt (measurements (_build_pauli_measurement [LX; LI; LY])).*1 ∧
  wire 2 (_build_pauli_measurement [LX; LI; LY])
  = [OpSdg 2; OpH 2; OpMeasure 2 1] ∧
  wire 1 (_build_pauli_measurement [LX; LI; LY]) = [] ∧
  (measurements (_build_pauli_measurement [LI; LI; LI])).*1 = [0].
Proof.
  pose proof (build_pauli_measurement_spec [LX; LI; LY])
    as (Hsome & _ & _ & _ & _ & Hwire & Hnone & _).
  pose proof (build_pauli_measurement_spec [LI; LI; LI]) as (_ & Hid & _).
  split; [|split; [|split]].
  - apply Hsome. exists 0. discriminate.
  - apply (Hwire 2 1). right. left.
  - apply Hnone. intros Hin.
    apply elem_of_cons in Hin as [Hin|Hin]; [discriminate|].
    apply elem_of_cons in Hin as [Hin|Hin]; [discriminate|].
    by apply elem_of_nil in Hin.
  - apply Hid. intros q. by destruct q as [|[|[|q]]].
Defined.

(** ** Decomposition of observables *)

Lemma label_at_nil q : label_at [] q = LI.
Proof. done. Qed.

Lemma label_at_cons_S l (t : PauliTerm) q :
  label_at (l :: t) (S q) = label_at t q.
Proof. done. Qed.

(** The updated basis keeps every label the old basis had fixed. *)
Lemma update_basis_keeps (b t : PauliTerm) q :
  label_at b q = LI ∨ label_at b q = label_at (update_basis b t) q.
Proof.
  revert t q. induction b as [|x b IH]; intros t q; [by left|].
  destruct t as [|y t]; [by right|].
  destruct q as [|q]; simpl.
  - unfold label_at. simpl. case_bool_decide; [by left|by right].
  - rewrite !label_at_cons_S. apply IH.
Qed.

(** A compatible term agrees with the updated basis wherever it is not I. *)
Lemma update_basis_covers (b t : PauliTerm) q :
  compatible b t = true →
  label_at t q = LI ∨ label_at t q = label_at (update_basis b t) q.
Proof.
  revert t q. induction b as [|x b IH]; intros t q Hc.
  { destruct t; by right. }
  destruct t as [|y t]; [by left|].
  simpl in Hc. apply andb_true_iff in Hc as [Hxy Hc].
  destruct q as [|q]; simpl.
  - unfold label_at. simpl. unfold labels_compatible in Hxy.
    repeat case_bool_decide; simplify_eq; auto; done.
  - rewrite !label_at_cons_S. by apply IH.
Qed.

Lemma first_fit_ok {C} (groups : list (MeasurementGroup C)) term :
  Forall group_ok groups → Forall group_ok (first_fit groups term).
Proof.
  induction 1 as [|g groups Hg Hgs IH]; simpl.
  - constructor; [|constructor]. intros t q Ht. simpl in Ht.
    apply list_elem_of_singleton in Ht as ->. by right.
  - destruct (compatible (basis g) term.1) eqn:Hc; constructor; try done.
    intros t q Ht. simpl in *. rewrite fmap_app in Ht.
    apply elem_of_app in Ht as [Ht|Ht].
    + destruct (Hg t q Ht) as [HI|Hb]; [by left|].
      destruct (update_basis_keeps (basis g) term.1 q) as [HI|Hk].
      * left. congruence.
      * right. congruence.
    + apply list_elem_of_singleton in Ht as ->.
      by apply update_basis_covers.
Qed.

Lemma AbelianDecomposer_decompose_ok {C} (observable : list (PauliTerm * C)) :
  Forall group_ok (AbelianDecomposer_decompose observable).
Proof.
  unfold AbelianDecomposer_decompose.
  induction observable as [|term observable IH] using rev_ind; [constructor|].
  rewrite foldl_app. simpl. by apply first_fit_ok.
Qed.

Lemma group_ok_commuting {C} (g : MeasurementGroup C) s t :
  group_ok g → s ∈ (terms g).*1 → t ∈ (terms g).*1 →
  qubit_wise_commuting s t.
Proof.
  intros Hg Hs Ht q.
  destruct (Hg s q Hs) as [HI|Hsb]; [auto|].
  destruct (Hg t q Ht) as [HI|Htb]; [auto|].
  left. congruence.
Qed.

(** C6. Grouping soundness: any two terms of a group produced by
    [AbelianDecomposer.decompose] are qubit-wise commuting, and
    [NaiveDecomposer.decompose] yields one singleton group per term of the
    observable, in order (so as many groups as terms). *)
Theorem decomposers_sound {C} (observable : list (PauliTerm * C)) :
  (∀ g s t, g ∈ AbelianDecomposer_decompose observable →
     s ∈ (terms g).*1 → t ∈ (terms g).*1 → qubit_wise_commuting s t) ∧
  terms <$> NaiveDecomposer_decompose observable
  = (λ term, [term]) <$> observable ∧
  length (NaiveDecomposer_decompose observable) = length observable.
Proof.
  split; [|split].
  - intros g s t Hg. apply group_ok_commuting.
    pose proof (AbelianDecomposer_decompose_ok observable) as Hok.
    by eapply Forall_forall in Hok.
  - unfold NaiveDecomposer_decompose. by rewrite <-list_fmap_compose.
  - unfold NaiveDecomposer_decompose. apply length_fmap.
Qed.

Lemma decomposers_sound_witness :
  let observable := [(Pauli "XI", 1%Z); (Pauli "ZZ", 2%Z); (Pauli "IY", 3%Z)] in
  basis <$> AbelianDecomposer_decompose observable = [Pauli "XY"; Pauli "ZZ"] ∧
  qubit_wise_commuting (Pauli "XI") (Pauli "IY").
Proof.
  split; [vm_compute; reflexivity|].
  apply (proj1 (decomposers_sound
           [(Pauli "XI", 1%Z); (Pauli "ZZ", 2%Z); (Pauli "IY", 3%Z)])
           {| terms := [(Pauli "XI", 1%Z); (Pauli "IY", 3%Z)];
              basis := Pauli "XY" |}).
  - vm_compute. left.
  - vm_compute. left.
  - vm_compute. right. left.
Defined.

(** ** Transpilation and layouts *)

Lemma measurements_app (a b : list Instruction) :
  omap as_measurement (a ++ b) = omap as_measurement a ++ omap as_measurement b.
Proof. apply omap_app. Qed.

(** The measure-all step measures qubit [i] into classical bit [i], for
    every qubit in turn. *)
Lemma measurements_measure_all_step n :
  omap as_measurement ((λ q, OpMeasure q q) <$> seq 0 n)
  = (λ q, (q, q)) <$> seq 0 n.
Proof. generalize 0. induction n as [|n IH]; intros j; simpl; [done|]. by rewrite IH. Qed.

Lemma measurements_measure_all (circuit : QuantumCircuit) :
  measurements (measure_all circuit)
  = measurements circuit ++ ((λ q, (q, q)) <$> seq 0 (num_qubits circuit)).
Proof.
  unfold measurements, measure_all. simpl.
  by rewrite measurements_app, measurements_measure_all_step.
Qed.

(** Relabelling the qubits relabels the qubit of every measurement and keeps
    its classical bit. *)
Lemma measurements_relabel f (ops : list Instruction) :
  omap as_measurement (relabel f <$> ops)
  = (λ m, (f m.1, m.2)) <$> omap as_measurement ops.
Proof.
  induction ops as [|i ops IH]; [done|].
  destruct i; csimpl; by rewrite ?IH.
Qed.

Lemma measurements_apply_layout T l (circuit : QuantumCircuit) :
  measurements (apply_layout T l circuit)
  = (λ m, (default m.1 (l !! m.1), m.2)) <$> measurements circuit.
Proof. apply measurements_relabel. Qed.

(** Measurements that already come in classical-bit order stay as they
    are. *)
Lemma sort_by_clbit_sorted (ms : list (nat * nat)) :
  StronglySorted le ms.*2 → sort_by_clbit ms = ms.
Proof.
  unfold sort_by_clbit.
  induction ms as [|m ms IH]; [done|].
  rewrite fmap_cons, StronglySorted_cons. intros [Hm Hms]. simpl.
  rewrite IH by done. destruct ms as [|m' ms]; [done|]. simpl.
  rewrite fmap_cons in Hm. apply Forall_cons in Hm as [Hle _].
  by rewrite decide_True.
Qed.

Lemma seq_StronglySorted_le j n : StronglySorted le (seq j n).
Proof.
  revert j. induction n as [|n IH]; intros j; simpl; constructor; [done|].
  apply Forall_forall. intros k Hk%elem_of_seq. lia.
Qed.

Lemma lookup_all_seq (l : list nat) :
  (λ q, default q (l !! q)) <$> seq 0 (length l) = l.
Proof.
  apply list_eq. intros i. rewrite list_lookup_fmap.
  destruct (decide (i < length l)) as [Hlt|Hge].
  - rewrite lookup_seq_lt by done. simpl.
    destruct (lookup_lt_is_Some_2 l i Hlt) as [x Hx]. by rewrite Hx.
  - rewrite lookup_seq_ge by lia. simpl. symmetry. apply lookup_ge_None. lia.
Qed.

Lemma relabelled_pairs_fst (g : nat → nat) (qs : list nat) :
  ((λ m : nat * nat, (g m.1, m.2)) <$> ((λ q, (q, q)) <$> qs)).*1 = g <$> qs.
Proof. induction qs as [|q qs IH]; [done|]. csimpl. by rewrite IH. Qed.

Lemma relabelled_pairs_snd (g : nat → nat) (qs : list nat) :
  ((λ m : nat * nat, (g m.1, m.2)) <$> ((λ q, (q, q)) <$> qs)).*2 = qs.
Proof. induction qs as [|q qs IH]; [done|]. csimpl. by rewrite IH. Qed.

(** What [infer_final_layout] reads back from a measure-all circuit whose
    qubits a layout has moved. *)
Lemma inferred_indices T l (body : QuantumCircuit) :
  measurements body = [] →
  length l = num_qubits body →
  (sort_by_clbit (measurements (apply_layout T l (measure_all body)))).*1 = l.
Proof.
  intros Hbody Hlen.
  rewrite measurements_apply_layout, measurements_measure_all, Hbody.
  rewrite app_nil_l, sort_by_clbit_sorted.
  - rewrite (relabelled_pairs_fst (λ q, default q (l !! q))), <-Hlen.
    apply lookup_all_seq.
  - rewrite (relabelled_pairs_snd (λ q, default q (l !! q))).
    apply seq_StronglySorted_le.
Qed.

(** C7. Layout inference round trip: for an original circuit whose
    measurements are those of its final measure-all, and a transpiled
    circuit obtained from it by only applying a layout that places each of
    its logical qubits, [infer_final_layout] returns the applied layout; and
    a 2-qubit original under the mapping 0 to 1, 1 to 3 on a 4-qubit target
    gives the layout where physical qubits 1 and 3 hold the logical qubits
    0 and 1 and the physical qubits 0 and 2 are unmapped. *)
Theorem infer_final_layout_round_trip :
  (∀ (body : QuantumCircuit) target_qubits layout_intlist,
     measurements body = [] →
     length layout_intlist = num_qubits body →
     _infer_final_layout (measure_all body)
       (apply_layout target_qubits layout_intlist (measure_all body))
     = layout_dict target_qubits layout_intlist (num_qubits body)) ∧
  (let original_circuit := measure_all (QuantumCircuit_init 2 0 []) in
   _infer_final_layout original_circuit
     (apply_layout 4 [1; 3] original_circuit)
   = {[ 0 := None; 1 := Some 0; 2 := None; 3 := Some 1 ]}).
Proof.
  split.
  - intros body T l Hbody Hlen. unfold _infer_final_layout.
    by rewrite inferred_indices.
  - vm_compute. reflexivity.
Qed.

Lemma infer_final_layout_round_trip_witness :
  let body := QuantumCircuit_init 3 0 [OpH 0; OpGate "cx" [0; 2]] in
  _infer_final_layout (measure_all body)
    (apply_layout 4 [1; 3; 0] (measure_all body))
  = {[ 0 := Some 2; 1 := Some 0; 2 := None; 3 := Some 1 ]}.
Proof.
  simpl.
  rewrite (proj1 infer_final_layout_round_trip
             (QuantumCircuit_init 3 0 [OpH 0; OpGate "cx" [0; 2]]) 4 [1; 3; 0]
             eq_refl eq_refl).
  vm_compute. reflexivity.
Defined.

Section Estimator.
Context {Backend : Type}.
Variable transpile : QuantumCircuit → Backend → QuantumCircuit.

(** C8. [run_bound_pass_manager]: without a bound pass manager it returns
    the circuit it was given and calls nothing; with one it returns what the
    pass manager returns for that circuit, after exactly one run of it, on
    that circuit; and an input that is not a circuit raises a type error,
    configured or not, without a call. *)
Theorem run_bound_pass_manager_contract
    (b : Backend) (grouping : bool) (circuit : QuantumCircuit) :
  _run_bound_pass_manager
    {| backend := b; abelian_grouping := grouping;
       _bound_pass_manager := None |} (PyCircuit circuit)
  = (Ok circuit, []) ∧
  (∀ pass_manager,
     _run_bound_pass_manager
       {| backend := b; abelian_grouping := grouping;
          _bound_pass_manager := Some pass_manager |} (PyCircuit circuit)
     = (Ok (run pass_manager circuit), [PassManagerRun circuit])) ∧
  (∀ (self : @BackendEstimator Backend) text,
     _run_bound_pass_manager self (PyStr text) = (Raise TypeError, []) ∧
     _run_bound_pass_manager self PyNone = (Raise TypeError, [])).
Proof. by repeat split. Qed.

(** C9. [transpile]: the measured circuit is the input circuit followed by
    one measurement of every qubit; the external transpiler is called
    exactly once, with the measured circuit and the backend; the result has
    the qubits, classical bits and instructions of the transpiler's output;
    its metadata is that of the transpiler's output plus, under
    ["final_layout"], the layout inferred from the measured circuit and the
    transpiler's output. *)
Theorem transpile_contract
    (self : @BackendEstimator Backend) (circuit : QuantumCircuit) :
  let measured_circuit := measure_all circuit in
  let transpiled_circuit := transpile measured_circuit (backend self) in
  let output := _transpile transpile self circuit in
  num_qubits measured_circuit = num_qubits circuit ∧
  data measured_circuit
  = data circuit ++ ((λ q, OpMeasure q q) <$> seq 0 (num_qubits circuit)) ∧
  output.2 = [TranspileCall measured_circuit (backend self)] ∧
  num_qubits output.1 = num_qubits transpiled_circuit ∧
  num_clbits output.1 = num_clbits transpiled_circuit ∧
  data output.1 = data transpiled_circuit ∧
  metadata output.1 !! "final_layout"%string
  = Some (MetaLayout
            (_infer_final_layout measured_circuit transpiled_circuit)) ∧
  delete "final_layout"%string (metadata output.1)
  = delete "final_layout"%string (metadata transpiled_circuit).
Proof.
  intros measured_circuit transpiled_circuit output.
  split; [done|]. split; [done|]. split; [done|]. split; [done|].
  split; [done|]. split; [done|]. split.
  - apply lookup_insert_eq.
  - apply delete_insert_eq.
Qed.

End Estimator.

End Backend_estimator_proofs.

(** * The model of backend_estimator_dev.py against its tests *)
Module Test_backend_estimator_dev_proofs.
Import Backend_estimator Test_backend_estimator_dev.

Example test_build_pauli_measurement_passes :
  forallb test_build_pauli_measurement measurement_circuit_examples = true.
Proof. vm_compute. reflexivity. Qed.

Example test_infer_final_layout_passes :
  forallb test_infer_final_layout layout_examples = true.
Proof. vm_compute. reflexivity. Qed.

Example test_transpile_passes :
  forallb test_transpile layout_examples = true.
Proof. vm_compute. reflexivity. Qed.

Example test_run_bound_pass_manager_passes circuit mock_circuit :
  test_run_bound_pass_manager circuit mock_circuit.
Proof. repeat split. Qed.

(** ** What the test data and the test oracles guarantee *)

Import Statevector_primitive_proofs Backend_estimator_proofs.

Lemma fromkeys_range_keys n : ((λ p : nat, (p, @None nat)) <$> seq 0 n).*1 = seq 0 n.
Proof. generalize 0. induction n as [|n IH]; intros j; [done|]. csimpl. by rewrite IH. Qed.

Lemma lookup_fromkeys_range n p :
  fromkeys_range n !! p = if decide (p < n) then Some None else None.
Proof.
  unfold fromkeys_range. case_decide as Hp.
  - apply elem_of_list_to_map_1.
    + rewrite fromkeys_range_keys. apply NoDup_seq.
    + apply (list_elem_of_fmap_2 (λ p : nat, (p, @None nat))).
      apply elem_of_seq. lia.
  - apply not_elem_of_list_to_map_1. rewrite fromkeys_range_keys.
    rewrite elem_of_seq. lia.
Qed.

(** A pair of [zip(layout_intlist, qubits)]: the physical qubit chosen for a
    logical qubit, with that logical qubit. *)
Lemma elem_of_zip_seq (l : list nat) p v :
  (p, v) ∈ zip l (seq 0 (length l)) ↔ l !! v = Some p.
Proof.
  rewrite (elem_of_lookup_zip_with pair). split.
  - intros (k & x & y & [= -> ->] & Hx & Hy).
    apply lookup_seq in Hy as [-> _]. done.
  - intros Hv. exists v, p, v. split; [done|]. split; [done|].
    apply lookup_seq. split; [done|]. by eapply lookup_lt_Some.
Qed.

Lemma lookup_layout_pairs (l : list nat) p :
  NoDup l →
  (∀ v, dict (zip l (seq 0 (length l))) !! p = Some v ↔ l !! v = Some p) ∧
  (dict (zip l (seq 0 (length l))) !! p = None ↔ p ∉ l).
Proof.
  intros Hnd.
  assert (Hfst : (zip l (seq 0 (length l))).*1 = l)
    by (apply fst_zip; by rewrite length_seq).
  split.
  - intros v. rewrite dict_lookup_NoDup by by rewrite Hfst.
    apply elem_of_zip_seq.
  - rewrite <-not_elem_of_dom, dict_dom, Hfst.
    by rewrite elem_of_list_to_set.
Qed.

(** X9. The layout dictionary the tests build from [target_qubits] and a
    duplicate-free [layout_intlist]: a physical qubit holds logical qubit
    [v] exactly when it is [layout_intlist[v]]; a physical qubit of the
    target that the list does not name is present and unmapped; and no
    other key exists. *)
Theorem layout_dict_lookup (target_qubits : nat) (layout_intlist : list nat) :
  NoDup layout_intlist →
  let layout :=
    layout_dict target_qubits layout_intlist (length layout_intlist) in
  (∀ p v, layout !! p = Some (Some v) ↔ layout_intlist !! v = Some p) ∧
  (∀ p, layout !! p = Some None ↔ p < target_qubits ∧ p ∉ layout_intlist) ∧
  (∀ p, layout !! p = None ↔ target_qubits ≤ p ∧ p ∉ layout_intlist).
Proof.
  intros Hnd layout.
  assert (Hlookup : ∀ p, layout !! p =
            match dict (zip layout_intlist (seq 0 (length layout_intlist))) !! p
            with
            | Some v => Some (Some v)
            | None => if decide (p < target_qubits) then Some None else None
            end).
  { intros p. unfold layout, layout_dict.
    rewrite lookup_union, lookup_fmap, lookup_fromkeys_range.
    destruct (dict _ !! p); case_decide; reflexivity. }
  split; [|split]; intros p; [intros v|..]; rewrite Hlookup;
    destruct (lookup_layout_pairs layout_intlist p Hnd) as [Hsome Hnone];
    destruct (dict _ !! p) as [v'|] eqn:Hd.
  - rewrite <-Hsome. split; congruence.
  - rewrite <-Hsome. case_decide; split; congruence.
  - split; [done|]. intros [_ Hnot]. apply Hnone in Hnot. done.
  - case_decide; split; try done.
    + intros _. split; [done|]. by apply Hnone.
    + intros [? _]. lia.
  - split; [done|]. intros [_ Hnot]. apply Hnone in Hnot. done.
  - case_decide; split; try done.
    + intros [? _]. lia.
    + intros _. split; [lia|]. by apply Hnone.
Qed.

Lemma layout_dict_lookup_witness :
  layout_dict 4 [3; 1] 2 !! 1 = Some (Some 1) ∧
  layout_dict 4 [3; 1] 2 !! 2 = Some None ∧
  layout_dict 4 [3; 1] 2 !! 4 = None.
Proof.
  assert (Hnd : NoDup [3; 1]).
  { apply NoDup_cons. split; [|apply NoDup_singleton].
    intros Hin. apply list_elem_of_singleton in Hin. discriminate. }
  destruct (layout_dict_lookup 4 [3; 1] Hnd) as (Hsome & Hnone & Habsent).
  split; [by apply Hsome|]. split.
  - apply Hnone. split; [lia|]. intros Hin.
    repeat (apply elem_of_cons in Hin as [Hin|Hin]; [discriminate|]).
    by apply elem_of_nil in Hin.
  - apply Habsent. split; [lia|]. intros Hin.
    repeat (apply elem_of_cons in Hin as [Hin|Hin]; [discriminate|]).
    by apply elem_of_nil in Hin.
Defined.

Lemma filter_ext_elem {A} (P Q : A → Prop) `{!∀ x, Decision (P x)}
    `{!∀ x, Decision (Q x)} (l : list A) :
  (∀ x, x ∈ l → P x ↔ Q x) → filter P l = filter Q l.
Proof.
  induction l as [|x l IH]; intros Hext; [done|].
  rewrite !filter_cons, IH.
  - destruct (decide (P x)) as [HP|HP], (decide (Q x)) as [HQ|HQ]; try done.
    + destruct HQ. apply Hext; [left|done].
    + destruct HP. apply Hext; [left|done].
  - intros y Hy. apply Hext. by right.
Qed.

(** The oracle of the test enumerates the term and keeps the positions of
    the labels other than I. *)
Lemma non_identity_positions (pauli : PauliTerm) j :
  (filter (λ ip : nat * PauliLabel, ip.2 ≠ LI)
     (zip (seq j (length pauli)) pauli)).*1
  = filter (λ q, label_at pauli (q - j) ≠ LI) (seq j (length pauli)).
Proof.
  revert j. induction pauli as [|x pauli IH]; intros j; [done|].
  simpl. rewrite !filter_cons. simpl. rewrite Nat.sub_diag.
  assert (Htail : filter (λ q, label_at (x :: pauli) (q - j) ≠ LI)
                    (seq (S j) (length pauli))
                  = filter (λ q, label_at pauli (q - S j) ≠ LI)
                      (seq (S j) (length pauli))).
  { apply filter_ext_elem. intros q Hq%elem_of_seq.
    by replace (q - j) with (S (q - S j)) by lia. }
  rewrite Htail, <-IH. unfold label_at at 1. simpl.
  by destruct (decide (x ≠ LI)).
Qed.

Lemma meas_indices_model (pauli : PauliTerm) :
  meas_indices pauli = measured_qubit_indices pauli.
Proof.
  unfold meas_indices, measured_qubit_indices, enumerate.
  rewrite non_identity_positions.
  by rewrite (list_filter_iff _ (λ q, label_at pauli q ≠ LI))
    by (intros q; by rewrite Nat.sub_0_r).
Qed.

(** X10. The oracle [meas_indices] of the tests: it is never empty and
    strictly increasing; when the term has a label other than I it holds
    exactly the positions of such labels; when every label is I (or the
    term is empty) it is the tuple (0,). *)
Theorem meas_indices_spec (pauli : PauliTerm) :
  meas_indices pauli ≠ [] ∧
  StronglySorted lt (meas_indices pauli) ∧
  (Exists (λ label, label ≠ LI) pauli →
     ∀ q, q ∈ meas_indices pauli
          ↔ ∃ label, pauli !! q = Some label ∧ label ≠ LI) ∧
  (Forall (λ label, label = LI) pauli → meas_indices pauli = [0]).
Proof.
  rewrite meas_indices_model.
  assert (Hlabel : ∀ q, label_at pauli q ≠ LI
                        ↔ ∃ label, pauli !! q = Some label ∧ label ≠ LI).
  { intros q. unfold label_at. destruct (pauli !! q) as [label|]; simpl.
    - split; [eauto|]. by intros (? & [= <-] & ?).
    - split; [done|]. by intros (? & ? & ?). }
  split; [|split; [|split]].
  - unfold measured_qubit_indices. by destruct (filter _ _).
  - unfold measured_qubit_indices.
    pose proof (filter_StronglySorted (λ q, label_at pauli q ≠ LI) _
                  (seq_StronglySorted 0 (length pauli))) as Hsorted.
    destruct (filter _ _); [|done]. repeat constructor.
  - intros (label & [q Hq]%list_elem_of_lookup & Hne)%Exists_exists q'.
    rewrite (measured_qubit_indices_some pauli q), <-Hlabel.
    + apply elem_of_non_identity.
    + apply Hlabel. eauto.
  - intros Hall. apply measured_qubit_indices_identity. intros q.
    unfold label_at. destruct (pauli !! q) as [label|] eqn:Hq; [|done].
    simpl. by eapply Forall_lookup in Hall.
Qed.

Lemma meas_indices_spec_witness :
  (2 ∈ meas_indices (Pauli "YIX") ↔
     ∃ label, Pauli "YIX" !! 2 = Some label ∧ label ≠ LI) ∧
  meas_indices (Pauli "IIII") = [0].
Proof.
  destruct (meas_indices_spec (Pauli "YIX")) as (_ & _ & Hsome & _).
  destruct (meas_indices_spec (Pauli "IIII")) as (_ & _ & _ & Hid).
  split.
  - apply Hsome. vm_compute. left. discriminate.
  - apply Hid. vm_compute. repeat constructor.
Defined.




End Test_backend_estimator_dev_proofs.
